(** * FifoQueueAsync: a FIFO queue with a worker-driven drain loop

    Two implementations of the same class live in the repository:
    - the linked-list queue (head / tail / length over [Node] objects,
      with the [manualStop] flag and [stopAutoDequeue]);
    - the array-cursor queue of [src/FifoQueueAsync.js]
      (items / front / rear).

    Both are embedded below as state-passing programs in a small
    state-and-exception monad.  [Node] objects live in an explicit heap
    so that the aliasing between [head], [tail] and the [next] links is
    the one of the JavaScript program.

    Conventions of the embedding:
    - numbers (lengths, cursors, batch sizes, delays) are integers;
    - the worker callback is code of the queue's owner: calling it is
      recorded in a log of [(elements, isEmpty)] pairs, and it does not
      call back into the queue;
    - [setTimeout] appends to a list of pending timers, which the host
      fires oldest first (all registrations of one queue carry the same
      delay and the same closure). *)

From stdpp Require Import gmap list strings.

Open Scope Z_scope.

(** ** JavaScript values

    Queue elements are opaque to the queue.  The worker field is tested
    with [=== null] and [typeof ... === 'function'], so the value type
    separates [null], functions and everything else. *)

Inductive jsval : Type :=
  | JNull
  | JUndefined
  | JBool (b : bool)
  | JNum (z : Z)
  | JStr (s : string)
  | JFun (id : nat)
  | JObj (id : nat).

#[global] Instance jsval_eq_dec : EqDecision jsval.
Proof. solve_decision. Defined.

(** [typeof v === 'function'] *)
Definition is_function (v : jsval) : bool :=
  match v with JFun _ => true | _ => false end.

(** [v === null] *)
Definition is_null (v : jsval) : bool :=
  match v with JNull => true | _ => false end.

(** What a method call hands back: a plain value or a fresh array of
    elements. *)
Inductive retval : Type :=
  | RVal (v : jsval)
  | RArray (l : list jsval).

#[global] Instance retval_eq_dec : EqDecision retval.
Proof. solve_decision. Defined.

(** The batch-size argument of [dequeue] and [getDequeueElements]: left
    out ([undefined], so the default parameter value applies), [null], or
    a number.  Numbers are integers throughout. *)
Inductive bsarg : Type :=
  | ArgUndefined
  | ArgNull
  | ArgNum (k : Z).

(** ** State and exception monad

    A method either completes with a value and a new state, or throws a
    [TypeError] (reading a property of [null]). *)

Inductive outcome (S A : Type) : Type :=
  | Ok (a : A) (s : S)
  | TypeError.
Arguments Ok {S A} a s.
Arguments TypeError {S A}.

Definition M (S A : Type) : Type := S -> outcome S A.

Definition ret {S A} (a : A) : M S A := fun s => Ok a s.

Definition bind {S A B} (m : M S A) (k : A -> M S B) : M S B :=
  fun s => match m s with
           | Ok a s' => k a s'
           | TypeError => TypeError
           end.

Notation "x <- m ;; k" := (bind m (fun x => k))
  (at level 100, m at next level, right associativity).
Notation "m ;;; k" := (bind m (fun _ => k))
  (at level 100, right associativity).

(** The value a computation returns, if it returns. *)
Definition returned {S A} (o : outcome S A) : option A :=
  match o with Ok a _ => Some a | TypeError => None end.

(** [for (let i = n; i > 0; i--) elements.push(body())]: the body runs
    once per unit of a positive [n] and not at all otherwise; the
    counter is [Z.to_nat n]. *)
Fixpoint push_loop {S} (body : M S jsval) (i : nat) (elements : list jsval)
  : M S (list jsval) :=
  match i with
  | O => ret elements
  | S i' => x <- body ;; push_loop body i' (elements ++ [x])
  end.

(** The number of elements a batch request extracts from [size]
    elements when the configured batch size is [bs]: the loop bound
    [dequeueLimit] of [getDequeueElements], as a count. *)
Definition batch_count (bs : Z) (batchSize : bsarg) (size : nat) : nat :=
  match batchSize with
  | ArgUndefined | ArgNull => Z.to_nat (Z.min bs (Z.of_nat size))
  | ArgNum k => Z.to_nat (Z.min k (Z.of_nat size))
  end.

(** Pending [setTimeout] registrations, oldest first.  Each entry keeps
    the delay it was registered with; every registration made by the
    queue carries the same closure, [() => this.startAutoDequeue()]. *)
Definition timer_queue : Type := list Z.

(** One recorded invocation of the worker callback:
    [dequeueWorkerCallback(elements, isEmpty)]. *)
Definition worker_call : Type := (list jsval * bool)%type.

(** The synchronous interface shared by both implementations. *)
Inductive sync_call : Type :=
  | SEnqueue (v : jsval)
  | SDequeue (batchSize : bsarg)
  | SPeek
  | SSize
  | SIsEmpty
  | SClear.

(** ** The linked-list queue *)

Module Linked.

Definition loc : Type := nat.

(** [class Node { value; next }] *)
Record Node : Type := mkNode {
  value : jsval;
  next : option loc
}.

(** The fields of a [FifoQueueAsync] object. *)
Record FifoQueueAsync : Type := mkQueue {
  head : option loc;
  tail : option loc;
  length : Z;
  dequeueWorkerCallback : jsval;
  dequeueBatchSize : Z;
  dequeueDelay : Z;
  manualStop : bool
}.

(** The queue object together with what it shares with its host: the
    heap of nodes, the log of worker invocations and the timers. *)
Record World : Type := mkWorld {
  heap : gmap loc Node;
  this : FifoQueueAsync;
  calls : list worker_call;
  timers : timer_queue
}.

Definition getThis : M World FifoQueueAsync := fun w => Ok (this w) w.

Definition setThis (q : FifoQueueAsync) : M World unit :=
  fun w => Ok tt (mkWorld (heap w) q (calls w) (timers w)).

Definition setHead (p : option loc) : M World unit :=
  q <- getThis ;;
  setThis (mkQueue p (tail q) (length q) (dequeueWorkerCallback q)
             (dequeueBatchSize q) (dequeueDelay q) (manualStop q)).

Definition setTail (p : option loc) : M World unit :=
  q <- getThis ;;
  setThis (mkQueue (head q) p (length q) (dequeueWorkerCallback q)
             (dequeueBatchSize q) (dequeueDelay q) (manualStop q)).

Definition setLength (n : Z) : M World unit :=
  q <- getThis ;;
  setThis (mkQueue (head q) (tail q) n (dequeueWorkerCallback q)
             (dequeueBatchSize q) (dequeueDelay q) (manualStop q)).

Definition setDequeueWorkerCallback (v : jsval) : M World unit :=
  q <- getThis ;;
  setThis (mkQueue (head q) (tail q) (length q) v
             (dequeueBatchSize q) (dequeueDelay q) (manualStop q)).

Definition setManualStop (b : bool) : M World unit :=
  q <- getThis ;;
  setThis (mkQueue (head q) (tail q) (length q) (dequeueWorkerCallback q)
             (dequeueBatchSize q) (dequeueDelay q) b).

(** [new Node(value)]: a fresh object with [next = null]. *)
Definition newNode (v : jsval) : M World loc :=
  fun w =>
    let l := fresh (dom (heap w)) in
    Ok l (mkWorld (<[l := mkNode v None]> (heap w)) (this w) (calls w) (timers w)).

(** Reading a property of [p]: a [TypeError] when [p] is [null]. *)
Definition deref (p : option loc) : M World Node :=
  fun w =>
    match p with
    | None => TypeError
    | Some l =>
        match heap w !! l with
        | Some nd => Ok nd w
        | None => TypeError
        end
    end.

(** [p.next = nx]: a [TypeError] when [p] is [null]. *)
Definition setNext (p : option loc) (nx : option loc) : M World unit :=
  nd <- deref p ;;
  fun w =>
    match p with
    | None => TypeError
    | Some l =>
        Ok tt (mkWorld (<[l := mkNode (value nd) nx]> (heap w)) (this w)
                 (calls w) (timers w))
    end.

(** [dequeueWorkerCallback(elements, isEmpty)]: the callback belongs to
    the owner of the queue; its invocation is recorded. *)
Definition callWorker (elements : list jsval) (isEmpty : bool) : M World unit :=
  fun w => Ok tt (mkWorld (heap w) (this w) (calls w ++ [(elements, isEmpty)]) (timers w)).

(** [setTimeout(() => { this.startAutoDequeue() }, delay)] *)
Definition setTimeout (delay : Z) : M World unit :=
  fun w => Ok tt (mkWorld (heap w) (this w) (calls w) (timers w ++ [delay])).

(** [new FifoQueueAsync(dequeueWorker, dequeueBatchSize, dequeueDelay, manualStop)] *)
Definition new (dequeueWorker : jsval) (batchSize delay : Z) (manual : bool) : World :=
  mkWorld ∅ (mkQueue None None 0 dequeueWorker batchSize delay manual) [] [].

Definition isEmpty : M World bool :=
  q <- getThis ;; ret (length q =? 0).

Definition size : M World Z :=
  q <- getThis ;; ret (length q).

Definition clear : M World unit :=
  setHead None ;;; setTail None ;;; setLength 0.

Definition getDequeueElement : M World jsval :=
  q <- getThis ;;
  if length q =? 0 then ret JNull
  else
    let removedNode := head q in
    (if bool_decide (head q = tail q) then setTail None else ret tt) ;;;
    hd <- deref (head q) ;;
    setHead (next hd) ;;;
    q' <- getThis ;;
    setLength (length q' - 1) ;;;
    nd <- deref removedNode ;;
    ret (value nd).

Definition getDequeueElements (batchSize : bsarg) : M World (list jsval) :=
  q <- getThis ;;
  let queueSize := length q in
  let dequeueLimit :=
    match batchSize with
    | ArgUndefined | ArgNull => Z.min (dequeueBatchSize q) queueSize
    | ArgNum k => Z.min k queueSize
    end in
  elements <- push_loop getDequeueElement (Z.to_nat dequeueLimit) [] ;;
  q' <- getThis ;;
  (if length q' =? 0 then clear else ret tt) ;;;
  ret elements.

Definition enqueue (v : jsval) : M World unit :=
  n <- newNode v ;;
  q <- getThis ;;
  (if length q =? 0 then
     setHead (Some n) ;;; setTail (Some n)
   else
     setNext (tail q) (Some n) ;;; setTail (Some n)) ;;;
  q' <- getThis ;;
  setLength (length q' + 1).

Definition dequeueWorker : M World unit :=
  q <- getThis ;;
  if is_function (dequeueWorkerCallback q) then
    elements <- getDequeueElements ArgUndefined ;;
    q' <- getThis ;;
    callWorker elements (length q' =? 0)
  else ret tt.

Definition dequeue (batchSize : bsarg) : M World retval :=
  let batchSize := match batchSize with ArgUndefined => ArgNum 1 | a => a end in
  q <- getThis ;;
  if negb (is_null (dequeueWorkerCallback q)) && is_function (dequeueWorkerCallback q) then
    dequeueWorker ;;; ret (RVal JUndefined)
  else
    elements <- getDequeueElements batchSize ;;
    ret (RArray elements).

Definition startAutoDequeue : M World jsval :=
  q <- getThis ;;
  if is_null (dequeueWorkerCallback q) || negb (is_function (dequeueWorkerCallback q)) then
    ret (JBool false)
  else if negb (manualStop q) then
    if negb (length q =? 0) then
      dequeueWorker ;;;
      q' <- getThis ;;
      setTimeout (dequeueDelay q') ;;;
      ret JUndefined
    else ret JUndefined
  else
    dequeueWorker ;;;
    q' <- getThis ;;
    setTimeout (dequeueDelay q') ;;;
    ret JUndefined.

Definition peek : M World jsval :=
  e <- isEmpty ;;
  if e then ret JNull
  else
    q <- getThis ;;
    hd <- deref (head q) ;;
    ret (value hd).

Definition removeDequeueWorkerCallback : M World unit :=
  setDequeueWorkerCallback JNull.

Definition stopAutoDequeue : M World unit :=
  setManualStop false.

Definition with_timers (w : World) (ts : timer_queue) : World :=
  mkWorld (heap w) (this w) (calls w) ts.

(** The host fires the oldest pending timer, whose closure calls
    [this.startAutoDequeue()] and drops the result.  With nothing
    pending there is nothing to run. *)
Definition fireTimer : M World unit :=
  fun w =>
    match timers w with
    | [] => Ok tt w
    | _ :: rest => (startAutoDequeue ;;; ret tt) (with_timers w rest)
    end.

(** The elements held by the queue, read off the heap: follow [next]
    from [head] for [length] nodes. *)
Fixpoint walk (h : gmap loc Node) (n : nat) (p : option loc) : list jsval :=
  match n, p with
  | S n', Some l =>
      match h !! l with
      | Some nd => value nd :: walk h n' (next nd)
      | None => []
      end
  | _, _ => []
  end.

Definition contents (w : World) : list jsval :=
  walk (heap w) (Z.to_nat (length (this w))) (head (this w)).

(** The drain policy of the queue object. *)
Definition policy (q : FifoQueueAsync) : jsval * Z * Z * bool :=
  (dequeueWorkerCallback q, dequeueBatchSize q, dequeueDelay q, manualStop q).

(** Every method of the class, and the host firing a timer. *)
Inductive call : Type :=
  | CGetDequeueElement
  | CGetDequeueElements (batchSize : bsarg)
  | CEnqueue (v : jsval)
  | CDequeue (batchSize : bsarg)
  | CDequeueWorker
  | CStartAutoDequeue
  | CPeek
  | CIsEmpty
  | CSize
  | CClear
  | CRemoveDequeueWorkerCallback
  | CStopAutoDequeue
  | CFireTimer.

Definition exec (c : call) : M World retval :=
  match c with
  | CGetDequeueElement => v <- getDequeueElement ;; ret (RVal v)
  | CGetDequeueElements a => l <- getDequeueElements a ;; ret (RArray l)
  | CEnqueue v => enqueue v ;;; ret (RVal JUndefined)
  | CDequeue a => dequeue a
  | CDequeueWorker => dequeueWorker ;;; ret (RVal JUndefined)
  | CStartAutoDequeue => v <- startAutoDequeue ;; ret (RVal v)
  | CPeek => v <- peek ;; ret (RVal v)
  | CIsEmpty => b <- isEmpty ;; ret (RVal (JBool b))
  | CSize => n <- size ;; ret (RVal (JNum n))
  | CClear => clear ;;; ret (RVal JUndefined)
  | CRemoveDequeueWorkerCallback => removeDequeueWorkerCallback ;;; ret (RVal JUndefined)
  | CStopAutoDequeue => stopAutoDequeue ;;; ret (RVal JUndefined)
  | CFireTimer => fireTimer ;;; ret (RVal JUndefined)
  end.

(** The states a queue can be in: built by the constructor, then driven
    through completed method calls and timer firings. *)
Inductive reachable : World -> Prop :=
  | reach_new cb bs delay manual : reachable (new cb bs delay manual)
  | reach_call w c r w' :
      reachable w -> exec c w = Ok r w' -> reachable w'.

Definition sync (c : sync_call) : call :=
  match c with
  | SEnqueue v => CEnqueue v
  | SDequeue a => CDequeue a
  | SPeek => CPeek
  | SSize => CSize
  | SIsEmpty => CIsEmpty
  | SClear => CClear
  end.

(** Run a list of calls in order, collecting what each returns. *)
Fixpoint run (cs : list call) : M World (list retval) :=
  match cs with
  | [] => ret []
  | c :: cs' => r <- exec c ;; rs <- run cs' ;; ret (r :: rs)
  end.

(** The queue obtained from the constructor by the calls [cs]. *)
Definition build (cb : jsval) (bs delay : Z) (manual : bool) (cs : list call) : World :=
  match run cs (new cb bs delay manual) with
  | Ok _ w => w
  | TypeError => new cb bs delay manual
  end.

(** Let the host fire pending timers until none is left.  [None] when
    [fuel] rounds were not enough. *)
Fixpoint settle (fuel : nat) (w : World) : option (outcome World unit) :=
  match timers w with
  | [] => Some (Ok tt w)
  | _ :: _ =>
      match fuel with
      | O => None
      | S fuel' =>
          match fireTimer w with
          | Ok _ w' => settle fuel' w'
          | TypeError => Some TypeError
          end
      end
  end.

(** *** Representation invariant

    [chain h p ls vs]: starting at [p] the [next] links visit exactly
    the nodes [ls], which hold the values [vs], and end in [null]. *)
Inductive chain (h : gmap loc Node) : option loc -> list loc -> list jsval -> Prop :=
  | chain_nil : chain h None [] []
  | chain_cons l ls v vs nx :
      h !! l = Some (mkNode v nx) ->
      chain h nx ls vs ->
      chain h (Some l) (l :: ls) (v :: vs).

(** The queue object of [w] represents the sequence [vs]. *)
Definition repr (w : World) (vs : list jsval) : Prop :=
  exists ls,
    chain (heap w) (head (this w)) ls vs /\
    NoDup ls /\
    length (this w) = Z.of_nat (List.length ls) /\
    tail (this w) = last ls.

(** What a method that only touches the chain leaves alone. *)
Definition same_host (w w' : World) : Prop :=
  policy (this w') = policy (this w) /\
  calls w' = calls w /\
  timers w' = timers w.

(** The structural invariants of the data model. *)
Definition length_zero_iff_empty (q : FifoQueueAsync) : Prop :=
  length q = 0 <-> (head q = None /\ tail q = None).

Definition head_is_tail_iff_short (q : FifoQueueAsync) : Prop :=
  head q = tail q <-> length q <= 1.

Definition structural_invariants (w : World) : Prop :=
  length_zero_iff_empty (this w) /\ head_is_tail_iff_short (this w).

End Linked.

(** ** The array-cursor queue ([src/FifoQueueAsync.js]) *)

Module ArrayCursor.

(** The fields of a [FifoQueueAsync] object.  [items] is a JavaScript
    array written at [rear] and emptied with [delete] at [front]: a
    finite map from indices to elements. *)
Record FifoQueueAsync : Type := mkQueue {
  items : gmap Z jsval;
  front : Z;
  rear : Z;
  dequeueWorkerCallback : jsval;
  dequeueBatchSize : Z;
  dequeueDelay : Z
}.

Record World : Type := mkWorld {
  this : FifoQueueAsync;
  calls : list worker_call;
  timers : timer_queue
}.

Definition getThis : M World FifoQueueAsync := fun w => Ok (this w) w.

Definition setThis (q : FifoQueueAsync) : M World unit :=
  fun w => Ok tt (mkWorld q (calls w) (timers w)).

Definition setItems (m : gmap Z jsval) : M World unit :=
  q <- getThis ;;
  setThis (mkQueue m (front q) (rear q) (dequeueWorkerCallback q)
             (dequeueBatchSize q) (dequeueDelay q)).

Definition setFront (n : Z) : M World unit :=
  q <- getThis ;;
  setThis (mkQueue (items q) n (rear q) (dequeueWorkerCallback q)
             (dequeueBatchSize q) (dequeueDelay q)).

Definition setRear (n : Z) : M World unit :=
  q <- getThis ;;
  setThis (mkQueue (items q) (front q) n (dequeueWorkerCallback q)
             (dequeueBatchSize q) (dequeueDelay q)).

Definition setDequeueWorkerCallback (v : jsval) : M World unit :=
  q <- getThis ;;
  setThis (mkQueue (items q) (front q) (rear q) v
             (dequeueBatchSize q) (dequeueDelay q)).

(** [items[i]]: [undefined] where the array has no entry. *)
Definition getItem (m : gmap Z jsval) (i : Z) : jsval :=
  default JUndefined (m !! i).

Definition callWorker (elements : list jsval) (isEmpty : bool) : M World unit :=
  fun w => Ok tt (mkWorld (this w) (calls w ++ [(elements, isEmpty)]) (timers w)).

Definition setTimeout (delay : Z) : M World unit :=
  fun w => Ok tt (mkWorld (this w) (calls w) (timers w ++ [delay])).

(** [new FifoQueueAsync(dequeueWorker, dequeueBatchSize, dequeueDelay)] *)
Definition new (dequeueWorker : jsval) (batchSize delay : Z) : World :=
  mkWorld (mkQueue ∅ 0 0 dequeueWorker batchSize delay) [] [].

Definition isEmpty : M World bool :=
  q <- getThis ;; ret (front q =? rear q).

Definition size : M World Z :=
  q <- getThis ;; ret (rear q - front q).

Definition clear : M World unit :=
  setItems ∅ ;;; setFront 0 ;;; setRear 0.

Definition getDequeueElement : M World jsval :=
  e <- isEmpty ;;
  if e then ret JNull
  else
    q <- getThis ;;
    let item := getItem (items q) (front q) in
    setItems (delete (front q) (items q)) ;;;
    q' <- getThis ;;
    setFront (front q' + 1) ;;;
    ret item.

Definition getDequeueElements (batchSize : bsarg) : M World (list jsval) :=
  queueSize <- size ;;
  q <- getThis ;;
  let dequeueLimit :=
    match batchSize with
    | ArgUndefined | ArgNull => Z.min (dequeueBatchSize q) queueSize
    | ArgNum k => Z.min k queueSize
    end in
  elements <- push_loop getDequeueElement (Z.to_nat dequeueLimit) [] ;;
  e <- isEmpty ;;
  (if e then clear else ret tt) ;;;
  ret elements.

Definition enqueue (element : jsval) : M World unit :=
  q <- getThis ;;
  setItems (<[rear q := element]> (items q)) ;;;
  q' <- getThis ;;
  setRear (rear q' + 1).

Definition dequeueWorker : M World unit :=
  q <- getThis ;;
  if is_function (dequeueWorkerCallback q) then
    elements <- getDequeueElements ArgUndefined ;;
    e <- isEmpty ;;
    callWorker elements e
  else ret tt.

Definition dequeue (batchSize : bsarg) : M World retval :=
  let batchSize := match batchSize with ArgUndefined => ArgNum 1 | a => a end in
  q <- getThis ;;
  if negb (is_null (dequeueWorkerCallback q)) && is_function (dequeueWorkerCallback q) then
    dequeueWorker ;;; ret (RVal JUndefined)
  else
    elements <- getDequeueElements batchSize ;;
    ret (RArray elements).

Definition startAutoDequeue : M World jsval :=
  q <- getThis ;;
  if is_null (dequeueWorkerCallback q) || negb (is_function (dequeueWorkerCallback q)) then
    ret (JBool false)
  else
    e <- isEmpty ;;
    if negb e then
      dequeueWorker ;;;
      q' <- getThis ;;
      setTimeout (dequeueDelay q') ;;;
      ret JUndefined
    else ret JUndefined.

Definition peek : M World jsval :=
  e <- isEmpty ;;
  if e then ret JNull
  else
    q <- getThis ;;
    ret (getItem (items q) (front q)).

Definition removeDequeueWorkerCallback : M World unit :=
  setDequeueWorkerCallback JNull.

Definition exec_sync (c : sync_call) : M World retval :=
  match c with
  | SEnqueue v => enqueue v ;;; ret (RVal JUndefined)
  | SDequeue a => dequeue a
  | SPeek => v <- peek ;; ret (RVal v)
  | SSize => n <- size ;; ret (RVal (JNum n))
  | SIsEmpty => b <- isEmpty ;; ret (RVal (JBool b))
  | SClear => clear ;;; ret (RVal JUndefined)
  end.

Fixpoint run (cs : list sync_call) : M World (list retval) :=
  match cs with
  | [] => ret []
  | c :: cs' => r <- exec_sync c ;; rs <- run cs' ;; ret (r :: rs)
  end.

(** The array-cursor queue represents [vs]: the live window
    [front, rear) of [items] holds the elements in order. *)
Definition repr (w : World) (vs : list jsval) : Prop :=
  rear (this w) = front (this w) + Z.of_nat (List.length vs) /\
  forall i v, vs !! i = Some v ->
    items (this w) !! (front (this w) + Z.of_nat i) = Some v.

End ArrayCursor.

(** ** Relating the two implementations *)

(** Both queues hold the same elements under the same batch size, and
    neither has a worker. *)
Definition sim (lw : Linked.World) (aw : ArrayCursor.World) : Prop :=
  exists vs,
    Linked.repr lw vs /\ ArrayCursor.repr aw vs /\
    is_function (Linked.dequeueWorkerCallback (Linked.this lw)) = false /\
    is_function (ArrayCursor.dequeueWorkerCallback (ArrayCursor.this aw)) = false /\
    Linked.dequeueBatchSize (Linked.this lw) =
      ArrayCursor.dequeueBatchSize (ArrayCursor.this aw).

(** ** The host side of both queues

    What the claims above did not need: repeated timer rounds on the
    linked queue, and the complete method surface of the array-cursor
    queue with its timers. *)

(** The methods the two classes have in common, and the host firing a
    timer ([stopAutoDequeue] exists on the linked queue only). *)
Inductive api_call : Type :=
  | AGetDequeueElement
  | AGetDequeueElements (batchSize : bsarg)
  | AEnqueue (v : jsval)
  | ADequeue (batchSize : bsarg)
  | ADequeueWorker
  | AStartAutoDequeue
  | APeek
  | AIsEmpty
  | ASize
  | AClear
  | ARemoveDequeueWorkerCallback
  | AFireTimer.

(** The elements passed to [enqueue] by a list of calls, in order. *)
Definition enqueued_values (cs : list sync_call) : list jsval :=
  flat_map (fun c => match c with SEnqueue v => [v] | _ => [] end) cs.

(** The elements handed back in arrays by a list of results, in order. *)
Definition dequeued_values (rs : list retval) : list jsval :=
  flat_map (fun r => match r with RArray l => l | RVal _ => [] end) rs.

Definition is_clear (c : sync_call) : bool :=
  match c with SClear => true | _ => false end.

Module LinkedHost.

Definition api (c : api_call) : Linked.call :=
  match c with
  | AGetDequeueElement => Linked.CGetDequeueElement
  | AGetDequeueElements a => Linked.CGetDequeueElements a
  | AEnqueue v => Linked.CEnqueue v
  | ADequeue a => Linked.CDequeue a
  | ADequeueWorker => Linked.CDequeueWorker
  | AStartAutoDequeue => Linked.CStartAutoDequeue
  | APeek => Linked.CPeek
  | AIsEmpty => Linked.CIsEmpty
  | ASize => Linked.CSize
  | AClear => Linked.CClear
  | ARemoveDequeueWorkerCallback => Linked.CRemoveDequeueWorkerCallback
  | AFireTimer => Linked.CFireTimer
  end.

(** The host fires [n] timer rounds in a row. *)
Fixpoint fire_rounds (n : nat) : M Linked.World unit :=
  match n with
  | O => ret tt
  | S n' => Linked.fireTimer ;;; fire_rounds n'
  end.

End LinkedHost.

Module ArrayHost.
Import ArrayCursor.

Definition with_timers (w : World) (ts : timer_queue) : World :=
  mkWorld (this w) (calls w) ts.

(** The host fires the oldest pending timer of the array-cursor queue:
    its closure calls [this.startAutoDequeue()]. *)
Definition fireTimer : M World unit :=
  fun w =>
    match timers w with
    | [] => Ok tt w
    | _ :: rest => (startAutoDequeue ;;; ret tt) (with_timers w rest)
    end.

Definition exec (c : api_call) : M World retval :=
  match c with
  | AGetDequeueElement => v <- getDequeueElement ;; ret (RVal v)
  | AGetDequeueElements a => l <- getDequeueElements a ;; ret (RArray l)
  | AEnqueue v => enqueue v ;;; ret (RVal JUndefined)
  | ADequeue a => dequeue a
  | ADequeueWorker => dequeueWorker ;;; ret (RVal JUndefined)
  | AStartAutoDequeue => v <- startAutoDequeue ;; ret (RVal v)
  | APeek => v <- peek ;; ret (RVal v)
  | AIsEmpty => b <- isEmpty ;; ret (RVal (JBool b))
  | ASize => n <- size ;; ret (RVal (JNum n))
  | AClear => clear ;;; ret (RVal JUndefined)
  | ARemoveDequeueWorkerCallback => removeDequeueWorkerCallback ;;; ret (RVal JUndefined)
  | AFireTimer => fireTimer ;;; ret (RVal JUndefined)
  end.

Fixpoint run (cs : list api_call) : M World (list retval) :=
  match cs with
  | [] => ret []
  | c :: cs' => r <- exec c ;; rs <- run cs' ;; ret (r :: rs)
  end.

(** The states an array-cursor queue can be in. *)
Inductive reachable : World -> Prop :=
  | reach_new cb bs delay : reachable (new cb bs delay)
  | reach_call w c r w' :
      reachable w -> exec c w = Ok r w' -> reachable w'.

Definition build (cb : jsval) (bs delay : Z) (cs : list api_call) : World :=
  match run cs (new cb bs delay) with
  | Ok _ w => w
  | TypeError => new cb bs delay
  end.

(** [items] has an entry exactly at the indices of the live window
    [front, rear). *)
Definition window (q : FifoQueueAsync) : Prop :=
  0 <= front q <= rear q /\
  forall k, is_Some (items q !! k) <-> front q <= k < rear q.

(** What the array-cursor queue shares with its host, and its policy. *)
Definition host (w : World) : jsval * Z * Z * list worker_call * timer_queue :=
  (dequeueWorkerCallback (this w), dequeueBatchSize (this w),
   dequeueDelay (this w), calls w, timers w).

(** A computation that, when it completes, has left [host] alone. *)
Definition frames {A} (m : M World A) : Prop :=
  forall w a w', m w = Ok a w' -> host w' = host w.

(** A computation that completes from every state whose queue object
    satisfies [P], and re-establishes [P]. *)
Definition keeps (P : FifoQueueAsync -> Prop) {A} (m : M World A) : Prop :=
  forall w, P (this w) -> exists a w', m w = Ok a w' /\ P (this w').


End ArrayHost.

(** The two queues hold the same elements and share the worker, the
    batch size, the delay, the worker log and the pending timers; the
    linked queue stops by itself. *)
Definition sim_host (lw : Linked.World) (aw : ArrayCursor.World) : Prop :=
  exists vs,
    Linked.repr lw vs /\ ArrayCursor.repr aw vs /\
    Linked.dequeueWorkerCallback (Linked.this lw) =
      ArrayCursor.dequeueWorkerCallback (ArrayCursor.this aw) /\
    Linked.dequeueBatchSize (Linked.this lw) =
      ArrayCursor.dequeueBatchSize (ArrayCursor.this aw) /\
    Linked.dequeueDelay (Linked.this lw) =
      ArrayCursor.dequeueDelay (ArrayCursor.this aw) /\
    Linked.manualStop (Linked.this lw) = false /\
    Linked.calls lw = ArrayCursor.calls aw /\
    Linked.timers lw = ArrayCursor.timers aw.


(** * Properties of the linked-list queue *)

Module LinkedProofs.
Import Linked.

(** ** The chain of nodes *)

Lemma chain_length h p ls vs :
  chain h p ls vs -> List.length ls = List.length vs.
Proof. induction 1; simpl; congruence. Qed.

Lemma chain_nil_inv h p vs : chain h p [] vs -> p = None /\ vs = [].
Proof. inversion 1; auto. Qed.

Lemma chain_nil_vals h p ls : chain h p ls [] -> p = None /\ ls = [].
Proof. inversion 1; auto. Qed.

Lemma chain_dom h p ls vs l :
  chain h p ls vs -> l ∈ ls -> is_Some (h !! l).
Proof.
  induction 1 as [|l0 ls v vs nx Hl _ IH]; intros Hin.
  - by apply elem_of_nil in Hin.
  - apply elem_of_cons in Hin as [->|Hin]; eauto.
Qed.

(** A chain only depends on the nodes it visits. *)
Lemma chain_agree h h' p ls vs :
  (forall l, l ∈ ls -> h' !! l = h !! l) ->
  chain h p ls vs -> chain h' p ls vs.
Proof.
  intros Hag Hc. induction Hc as [|l ls v vs nx Hl _ IH].
  - constructor.
  - econstructor.
    + rewrite Hag; [exact Hl | apply elem_of_cons; auto].
    + apply IH. intros l' Hl'. apply Hag, elem_of_cons; auto.
Qed.

Lemma chain_walk h p ls vs :
  chain h p ls vs -> walk h (List.length ls) p = vs.
Proof.
  induction 1 as [|l ls v vs nx Hl _ IH]; simpl; [done|].
  rewrite Hl. simpl. by rewrite IH.
Qed.

(** Linking a fresh node behind the last one appends its value. *)
Lemma chain_snoc h p ls vs t n v :
  chain h p ls vs -> NoDup ls -> last ls = Some t -> n ∉ ls ->
  exists vt,
    h !! t = Some (mkNode vt None) /\
    chain (<[t := mkNode vt (Some n)]> (<[n := mkNode v None]> h)) p
      (ls ++ [n]) (vs ++ [v]).
Proof.
  induction 1 as [|l ls v0 vs nx Hl Hc IH]; intros Hnd Hlast Hn; [done|].
  apply NoDup_cons in Hnd as [Hl_notin Hnd].
  apply not_elem_of_cons in Hn as [Hnl Hn].
  destruct ls as [|l1 ls1].
  - apply chain_nil_inv in Hc as [-> ->]. simpl in Hlast.
    injection Hlast as <-. exists v0. split; [done|]. simpl.
    econstructor; [apply lookup_insert_eq|].
    econstructor; [|constructor].
    rewrite lookup_insert_ne by done. apply lookup_insert_eq.
  - assert (Hlast' : last (l1 :: ls1) = Some t) by exact Hlast.
    destruct (IH Hnd Hlast' Hn) as (vt & Ht & Hc').
    exists vt. split; [done|].
    assert (t ∈ l1 :: ls1) as Ht_in.
    { apply list_elem_of_lookup. apply last_Some in Hlast' as [l' ->].
      exists (List.length l'). by rewrite list_lookup_middle. }
    change ((l :: l1 :: ls1) ++ [n]) with (l :: (l1 :: ls1) ++ [n]).
    change ((v0 :: vs) ++ [v]) with (v0 :: vs ++ [v]).
    econstructor; [|exact Hc'].
    rewrite !lookup_insert_ne; [done|congruence|].
    intros ->. done.
Qed.

(** ** What the representation fixes *)

Lemma repr_length w vs : repr w vs -> length (this w) = Z.of_nat (List.length vs).
Proof.
  intros (ls & Hc & _ & Hlen & _). rewrite Hlen.
  by rewrite (chain_length _ _ _ _ Hc).
Qed.

Lemma repr_contents w vs : repr w vs -> contents w = vs.
Proof.
  intros (ls & Hc & _ & Hlen & _). unfold contents.
  rewrite Hlen, Nat2Z.id. by apply chain_walk.
Qed.

Lemma repr_inj w vs vs' : repr w vs -> repr w vs' -> vs = vs'.
Proof.
  intros H1 H2. by rewrite <- (repr_contents _ _ H1), <- (repr_contents _ _ H2).
Qed.

Lemma repr_nil_inv w :
  repr w [] -> head (this w) = None /\ tail (this w) = None /\ length (this w) = 0.
Proof.
  intros (ls & Hc & _ & Hlen & Htl).
  apply chain_nil_vals in Hc as [Hh ->]. simpl in *. auto.
Qed.

Lemma repr_length_zero w vs : repr w vs -> length (this w) = 0 -> vs = [].
Proof.
  intros Hr Hz. rewrite (repr_length _ _ Hr) in Hz.
  destruct vs; [done | simpl in Hz; lia].
Qed.

Lemma same_host_refl w : same_host w w.
Proof. by repeat split. Qed.

Lemma same_host_trans w1 w2 w3 :
  same_host w1 w2 -> same_host w2 w3 -> same_host w1 w3.
Proof.
  intros (?&?&?) (?&?&?). repeat split; congruence.
Qed.

Lemma new_repr cb bs delay manual : repr (new cb bs delay manual) [].
Proof.
  exists []. simpl. repeat split; [constructor | constructor].
Qed.

(** ** The methods on a represented queue *)

Lemma clear_spec w :
  exists w', clear w = Ok tt w' /\ repr w' [] /\ same_host w w' /\ heap w' = heap w.
Proof.
  eexists. split; [reflexivity|]. split; [|by repeat split].
  exists []. simpl. repeat split; [constructor | constructor].
Qed.

(** On an empty queue the pointers are already reset. *)
Lemma clear_id w : repr w [] -> clear w = Ok tt w.
Proof.
  intros Hr. apply repr_nil_inv in Hr as (Hh & Ht & Hl).
  destruct w as [h q c t]. destruct q as [hd tl len cb bs dl ms].
  simpl in *. subst. reflexivity.
Qed.

Lemma enqueue_spec w vs v :
  repr w vs ->
  exists w', enqueue v w = Ok tt w' /\ repr w' (vs ++ [v]) /\ same_host w w'.
Proof.
  intros (ls & Hc & Hnd & Hlen & Htl).
  destruct w as [h q c t]. destruct q as [hd tl len cb bs dl ms].
  simpl in *. subst len tl.
  set (n := fresh (dom h)).
  assert (Hfresh : h !! n = None).
  { apply not_elem_of_dom. apply is_fresh. }
  assert (Hn : n ∉ ls).
  { intros Hin. destruct (chain_dom _ _ _ _ _ Hc Hin) as [x Hx]. congruence. }
  destruct ls as [|l0 ls0].
  - apply chain_nil_inv in Hc as [-> ->].
    eexists. split; [reflexivity|]. split; [|by repeat split].
    exists [n]. simpl. repeat split.
    + econstructor; [apply lookup_insert_eq | constructor].
    + apply NoDup_singleton.
  - destruct (last (l0 :: ls0)) as [t0|] eqn:Hlast;
      [|by apply last_None in Hlast].
    destruct (chain_snoc _ _ _ _ _ n v Hc Hnd Hlast Hn) as (vt & Ht & Hc').
    unfold enqueue, bind, newNode, getThis, setNext, deref, setHead, setTail,
      setLength, setThis, bind, getThis; simpl.
    fold n.
    replace (Z.pos (Pos.of_succ_nat (List.length ls0)) =? 0) with false
      by (symmetry; apply Z.eqb_neq; lia).
    simpl. rewrite lookup_insert_ne by (intros ->; congruence).
    rewrite Ht. simpl.
    eexists. split; [reflexivity|]. split; [|by repeat split].
    exists ((l0 :: ls0) ++ [n]). simpl. repeat split.
    + exact Hc'.
    + change (NoDup ((l0 :: ls0) ++ [n])). apply NoDup_app. repeat split.
      * done.
      * intros x Hx Hx'. apply list_elem_of_singleton in Hx'. by subst.
      * apply NoDup_singleton.
    + rewrite length_app. simpl. lia.
    + change (Some n = last ((l0 :: ls0) ++ [n])). by rewrite last_snoc.
Qed.


Lemma getDequeueElement_nil w : repr w [] -> getDequeueElement w = Ok JNull w.
Proof.
  intros Hr. apply repr_nil_inv in Hr as (_ & _ & Hl).
  unfold getDequeueElement, bind, getThis. by rewrite Hl.
Qed.

Lemma getDequeueElement_cons w v vs :
  repr w (v :: vs) ->
  exists w',
    getDequeueElement w = Ok v w' /\ repr w' vs /\ same_host w w' /\
    heap w' = heap w.
Proof.
  intros (ls & Hc & Hnd & Hlen & Htl).
  destruct w as [h q c t]. destruct q as [hd tl len cb bs dl ms].
  simpl in *. subst len tl.
  inversion Hc as [|l ls' v' vs' nx Hl Hc' E1 E2 E3]; subst.
  apply NoDup_cons in Hnd as [Hl_notin Hnd].
  unfold getDequeueElement, bind, getThis, setTail, setHead, setLength, deref,
    setThis, ret, bind, getThis; simpl.
  destruct ls' as [|l1 ls1].
  - apply chain_nil_inv in Hc' as [-> ->]. simpl.
    rewrite bool_decide_eq_true_2 by done. simpl. rewrite Hl. simpl.
    rewrite Hl. simpl.
    eexists. split; [reflexivity|]. split; [|by repeat split].
    exists []. simpl. repeat split; [constructor | constructor].
  - assert (Hne : Some l ≠ last (l :: l1 :: ls1)).
    { change (last (l :: l1 :: ls1)) with (last (l1 :: ls1)).
      intros Heq. apply Hl_notin. symmetry in Heq.
      apply last_Some in Heq as [l' ->].
      apply list_elem_of_lookup. exists (List.length l').
      by rewrite list_lookup_middle. }
    rewrite bool_decide_eq_false_2 by exact Hne. simpl. rewrite Hl. simpl.
    rewrite Hl. simpl.
    eexists. split; [reflexivity|]. split; [|by repeat split].
    exists (l1 :: ls1). simpl. repeat split; [done | done | lia].
Qed.

(** The extraction loop takes the first [n] elements, oldest first. *)
Lemma push_loop_spec n : forall w vs acc,
  repr w vs -> (n <= List.length vs)%nat ->
  exists w',
    push_loop getDequeueElement n acc w = Ok (acc ++ take n vs) w' /\
    repr w' (drop n vs) /\ same_host w w' /\ heap w' = heap w.
Proof.
  induction n as [|n IH]; intros w vs acc Hr Hn.
  - exists w. simpl. rewrite app_nil_r, drop_0.
    repeat split; [done | apply same_host_refl ..].
  - destruct vs as [|v vs]; [simpl in Hn; lia|].
    destruct (getDequeueElement_cons _ _ _ Hr) as (w1 & E1 & Hr1 & Hs1 & Hh1).
    destruct (IH w1 vs (acc ++ [v]) Hr1) as (w2 & E2 & Hr2 & Hs2 & Hh2);
      [simpl in Hn; lia|].
    exists w2. simpl. unfold bind at 1. rewrite E1, E2.
    rewrite <- app_assoc. simpl.
    repeat split; [done | eapply same_host_trans; eauto .. | congruence].
Qed.

Lemma batch_count_le bs a size : (batch_count bs a size <= size)%nat.
Proof. destruct a; simpl; lia. Qed.

Lemma getDequeueElements_spec w vs a :
  repr w vs ->
  let n := batch_count (dequeueBatchSize (this w)) a (List.length vs) in
  exists w',
    getDequeueElements a w = Ok (take n vs) w' /\
    repr w' (drop n vs) /\ same_host w w' /\ heap w' = heap w.
Proof.
  intros Hr n.
  destruct (push_loop_spec n w vs [] Hr (batch_count_le _ _ _))
    as (w1 & E1 & Hr1 & Hs1 & Hh1).
  unfold getDequeueElements, bind at 1, getThis.
  rewrite (repr_length _ _ Hr).
  change (match a with
          | ArgNum k => Z.min k (Z.of_nat (List.length vs))
          | _ => Z.min (dequeueBatchSize (this w)) (Z.of_nat (List.length vs))
          end) with
    (match a with
     | ArgUndefined | ArgNull =>
         Z.min (dequeueBatchSize (this w)) (Z.of_nat (List.length vs))
     | ArgNum k => Z.min k (Z.of_nat (List.length vs))
     end).
  replace (Z.to_nat
             match a with
             | ArgUndefined | ArgNull =>
                 Z.min (dequeueBatchSize (this w)) (Z.of_nat (List.length vs))
             | ArgNum k => Z.min k (Z.of_nat (List.length vs))
             end) with n by (unfold n, batch_count; by destruct a).
  unfold bind at 1. rewrite E1. simpl.
  unfold bind at 1. simpl.
  destruct (length (this w1) =? 0) eqn:Hz.
  - apply Z.eqb_eq in Hz. pose proof (repr_length_zero _ _ Hr1 Hz) as Hnil.
    rewrite Hnil in Hr1. unfold bind. rewrite (clear_id _ Hr1).
    exists w1. rewrite Hnil. by split_and!.
  - exists w1. by split_and!.
Qed.


Lemma repr_isEmpty w vs :
  repr w vs -> (length (this w) =? 0) = bool_decide (vs = []).
Proof.
  intros Hr. rewrite (repr_length _ _ Hr).
  by destruct vs.
Qed.

Lemma peek_spec w vs :
  repr w vs -> peek w = Ok (default JNull (vs !! 0%nat)) w.
Proof.
  intros Hr. unfold peek, isEmpty, bind, getThis, ret. simpl.
  rewrite (repr_isEmpty _ _ Hr).
  destruct Hr as (ls & Hc & _).
  inversion Hc as [|l ls' v vs' nx Hl Hc' E1 E2 E3]; subst; simpl; [done|].
  unfold deref. rewrite <- E1. by rewrite Hl.
Qed.

Lemma no_worker_test cb :
  is_null cb || negb (is_function cb) = negb (is_function cb).
Proof. by destruct cb. Qed.

Lemma worker_test cb :
  negb (is_null cb) && is_function cb = is_function cb.
Proof. by destruct cb. Qed.

Lemma dequeueWorker_none w :
  is_function (dequeueWorkerCallback (this w)) = false ->
  dequeueWorker w = Ok tt w.
Proof. intros Hf. unfold dequeueWorker, bind, getThis. by rewrite Hf. Qed.

(** One worker-driven extraction: a batch of the configured size is
    taken and handed to the worker with the emptiness seen afterwards. *)
Lemma dequeueWorker_spec w vs :
  repr w vs ->
  is_function (dequeueWorkerCallback (this w)) = true ->
  let n := batch_count (dequeueBatchSize (this w)) ArgNull (List.length vs) in
  exists w',
    dequeueWorker w = Ok tt w' /\
    repr w' (drop n vs) /\
    policy (this w') = policy (this w) /\
    calls w' = calls w ++ [(take n vs, bool_decide (drop n vs = []))] /\
    timers w' = timers w.
Proof.
  intros Hr Hf n.
  destruct (getDequeueElements_spec w vs ArgUndefined Hr)
    as (w1 & E1 & Hr1 & (Hp1 & Hc1 & Ht1) & Hh1).
  change (batch_count (dequeueBatchSize (this w)) ArgUndefined (List.length vs)) with n in *.
  unfold dequeueWorker, bind at 1, getThis. rewrite Hf.
  unfold bind at 1. rewrite E1. unfold bind, getThis, callWorker.
  rewrite (repr_isEmpty _ _ Hr1).
  eexists. split; [reflexivity|]. simpl.
  split_and!; [|done|by rewrite Hc1|done].
  destruct Hr1 as (ls & ?). by exists ls.
Qed.

Lemma repr_with_timers w ts vs : repr w vs -> repr (with_timers w ts) vs.
Proof. intros (ls & ?). by exists ls. Qed.

Lemma startAutoDequeue_none w :
  is_function (dequeueWorkerCallback (this w)) = false ->
  startAutoDequeue w = Ok (JBool false) w.
Proof.
  intros Hf. unfold startAutoDequeue, bind, getThis.
  by rewrite no_worker_test, Hf.
Qed.

(** With automatic stop and nothing queued, a round does nothing. *)
Lemma startAutoDequeue_idle w :
  repr w [] ->
  is_function (dequeueWorkerCallback (this w)) = true ->
  manualStop (this w) = false ->
  startAutoDequeue w = Ok JUndefined w.
Proof.
  intros Hr Hf Hms. unfold startAutoDequeue, bind, getThis.
  rewrite no_worker_test, Hf, Hms. simpl.
  by rewrite (repr_isEmpty _ _ Hr).
Qed.

(** Otherwise a round is one worker-driven extraction followed by one
    timer registration. *)
Lemma startAutoDequeue_round w vs :
  repr w vs ->
  is_function (dequeueWorkerCallback (this w)) = true ->
  manualStop (this w) = true \/ vs <> [] ->
  let n := batch_count (dequeueBatchSize (this w)) ArgNull (List.length vs) in
  exists w',
    startAutoDequeue w = Ok JUndefined w' /\
    repr w' (drop n vs) /\
    policy (this w') = policy (this w) /\
    calls w' = calls w ++ [(take n vs, bool_decide (drop n vs = []))] /\
    timers w' = timers w ++ [dequeueDelay (this w)].
Proof.
  intros Hr Hf Hgo n.
  destruct (dequeueWorker_spec w vs Hr Hf) as (w1 & E1 & Hr1 & Hp1 & Hc1 & Ht1).
  fold n in Hr1, Hc1.
  assert (Hd : dequeueDelay (this w1) = dequeueDelay (this w)).
  { unfold policy in Hp1. congruence. }
  assert (E : (dequeueWorker ;;; q' <- getThis ;; setTimeout (dequeueDelay q') ;;;
               ret JUndefined) w =
              Ok JUndefined (with_timers w1 (timers w1 ++ [dequeueDelay (this w1)]))).
  { unfold bind at 1. by rewrite E1. }
  exists (with_timers w1 (timers w1 ++ [dequeueDelay (this w1)])).
  split.
  - unfold startAutoDequeue, bind at 1, getThis.
    rewrite no_worker_test, Hf. simpl.
    destruct (manualStop (this w)) eqn:Hms; simpl; [exact E|].
    rewrite (repr_isEmpty _ _ Hr).
    destruct Hgo as [|Hne]; [done|].
    rewrite bool_decide_eq_false_2 by done. exact E.
  - simpl. split_and!; [by apply repr_with_timers|done|done|by rewrite Ht1, Hd].
Qed.


Lemma dequeue_no_worker w a :
  is_function (dequeueWorkerCallback (this w)) = false ->
  dequeue a w =
    (elements <- getDequeueElements
                   (match a with ArgUndefined => ArgNum 1 | _ => a end) ;;
     ret (RArray elements)) w.
Proof.
  intros Hf. unfold dequeue, bind at 1, getThis.
  by rewrite worker_test, Hf.
Qed.

Lemma dequeue_worker w a :
  is_function (dequeueWorkerCallback (this w)) = true ->
  dequeue a w = (dequeueWorker ;;; ret (RVal JUndefined)) w.
Proof.
  intros Hf. unfold dequeue, bind at 1, getThis.
  by rewrite worker_test, Hf.
Qed.

(** ** Reachable states are represented states *)

Lemma startAutoDequeue_repr w vs :
  repr w vs -> exists r w' vs', startAutoDequeue w = Ok r w' /\ repr w' vs'.
Proof.
  intros Hr.
  destruct (is_function (dequeueWorkerCallback (this w))) eqn:Hf.
  - destruct (manualStop (this w)) eqn:Hms.
    + destruct (startAutoDequeue_round w vs Hr Hf (or_introl Hms))
        as (w' & E & Hr' & _). eauto.
    + destruct vs as [|v vs].
      * do 3 eexists. split; [by apply startAutoDequeue_idle|exact Hr].
      * destruct (startAutoDequeue_round w (v :: vs) Hr Hf) as (w' & E & Hr' & _);
          [by right|eauto].
  - do 3 eexists. split; [by apply startAutoDequeue_none|exact Hr].
Qed.

(** Every call completes on a represented queue and leaves it
    represented. *)
Lemma exec_repr c w vs :
  repr w vs -> exists r w' vs', exec c w = Ok r w' /\ repr w' vs'.
Proof.
  intros Hr. destruct c; simpl.
  - destruct vs as [|v vs].
    + exists (RVal JNull), w, []. unfold bind.
      by rewrite (getDequeueElement_nil _ Hr).
    + destruct (getDequeueElement_cons _ _ _ Hr) as (w' & E & Hr' & _).
      exists (RVal v), w', vs. unfold bind. by rewrite E.
  - destruct (getDequeueElements_spec w vs batchSize Hr) as (w' & E & Hr' & _).
    do 3 eexists. unfold bind. rewrite E. split; [reflexivity|exact Hr'].
  - destruct (enqueue_spec w vs v Hr) as (w' & E & Hr' & _).
    do 3 eexists. unfold bind. rewrite E. split; [reflexivity|exact Hr'].
  - destruct (is_function (dequeueWorkerCallback (this w))) eqn:Hf.
    + rewrite (dequeue_worker _ _ Hf).
      destruct (dequeueWorker_spec w vs Hr Hf) as (w' & E & Hr' & _).
      do 3 eexists. unfold bind. rewrite E. split; [reflexivity|exact Hr'].
    + rewrite (dequeue_no_worker _ _ Hf).
      destruct (getDequeueElements_spec w vs
                  (match batchSize with ArgUndefined => ArgNum 1 | _ => batchSize end)
                  Hr) as (w' & E & Hr' & _).
      do 3 eexists. unfold bind. rewrite E. split; [reflexivity|exact Hr'].
  - destruct (is_function (dequeueWorkerCallback (this w))) eqn:Hf.
    + destruct (dequeueWorker_spec w vs Hr Hf) as (w' & E & Hr' & _).
      do 3 eexists. unfold bind. rewrite E. split; [reflexivity|exact Hr'].
    + do 3 eexists. unfold bind. rewrite (dequeueWorker_none _ Hf).
      split; [reflexivity|exact Hr].
  - destruct (startAutoDequeue_repr w vs Hr) as (r & w' & vs' & E & Hr').
    do 3 eexists. unfold bind. rewrite E. split; [reflexivity|exact Hr'].
  - do 3 eexists. unfold bind. rewrite (peek_spec _ _ Hr).
    split; [reflexivity|exact Hr].
  - do 3 eexists. split; [reflexivity|exact Hr].
  - do 3 eexists. split; [reflexivity|exact Hr].
  - destruct (clear_spec w) as (w' & E & Hr' & _).
    do 3 eexists. unfold bind. rewrite E. split; [reflexivity|exact Hr'].
  - do 3 eexists. split; [reflexivity|].
    destruct Hr as (ls & ?). by exists ls.
  - do 3 eexists. split; [reflexivity|].
    destruct Hr as (ls & ?). by exists ls.
  - unfold bind, fireTimer. destruct (timers w) as [|d rest] eqn:Ht.
    + do 3 eexists. split; [reflexivity|exact Hr].
    + destruct (startAutoDequeue_repr _ vs (repr_with_timers w rest vs Hr))
        as (r & w' & vs' & E & Hr').
      do 3 eexists. unfold bind. rewrite E. split; [reflexivity|exact Hr'].
Qed.

Lemma reachable_repr w : reachable w -> repr w (contents w).
Proof.
  intros Hreach.
  assert (exists vs, repr w vs) as [vs Hr].
  { induction Hreach as [cb bs delay manual | w c r w' _ [vs Hr] E].
    - exists []. apply new_repr.
    - destruct (exec_repr c w vs Hr) as (r0 & w0 & vs' & E0 & Hr').
      rewrite E in E0. injection E0 as <- <-. by exists vs'. }
  by rewrite (repr_contents _ _ Hr).
Qed.

(** No call on a reachable queue throws. *)
Lemma exec_total c w : reachable w -> exists r w', exec c w = Ok r w'.
Proof.
  intros Hreach. destruct (exec_repr c w _ (reachable_repr _ Hreach))
    as (r & w' & _ & E & _). eauto.
Qed.


Lemma reachable_run cs : forall w rs w',
  reachable w -> run cs w = Ok rs w' -> reachable w'.
Proof.
  induction cs as [|c cs IH]; intros w rs w' Hreach E; simpl in E.
  - by injection E as <- <-.
  - unfold bind in E. destruct (exec c w) as [r w1|] eqn:E1; [|done].
    destruct (run cs w1) as [rs1 w2|] eqn:E2; [|done].
    injection E as <- <-. eapply IH; [|exact E2].
    eapply reach_call; eauto.
Qed.

Lemma build_reachable cb bs delay manual cs :
  reachable (build cb bs delay manual cs).
Proof.
  unfold build. destruct (run cs (new cb bs delay manual)) as [rs w|] eqn:E.
  - eapply reachable_run; [apply reach_new | exact E].
  - apply reach_new.
Qed.

Lemma run_app cs1 : forall cs2 w,
  run (cs1 ++ cs2) w =
    (rs1 <- run cs1 ;; rs2 <- run cs2 ;; ret (rs1 ++ rs2)) w.
Proof.
  induction cs1 as [|c cs1 IH]; intros cs2 w; simpl.
  - unfold bind, ret. by destruct (run cs2 w).
  - unfold bind, ret. destruct (exec c w) as [r w1|]; [|done].
    rewrite IH. unfold bind, ret.
    destruct (run cs1 w1) as [rs1 w2|]; [|done].
    by destruct (run cs2 w2).
Qed.

(** ** First in, first out *)

Lemma dequeue_one_spec w v vs :
  repr w (v :: vs) ->
  is_function (dequeueWorkerCallback (this w)) = false ->
  exists w',
    dequeue (ArgNum 1) w = Ok (RArray [v]) w' /\ repr w' vs /\ same_host w w'.
Proof.
  intros Hr Hf. rewrite (dequeue_no_worker _ _ Hf).
  destruct (getDequeueElements_spec w (v :: vs) (ArgNum 1) Hr)
    as (w' & E & Hr' & Hs & _).
  replace (batch_count (dequeueBatchSize (this w)) (ArgNum 1) (List.length (v :: vs))) with 1%nat
    in * by (simpl; lia).
  exists w'. unfold bind. rewrite E. simpl in Hr'. rewrite drop_0 in Hr'.
  simpl. by rewrite take_0.
Qed.

Lemma run_enqueues vs : forall w l,
  repr w l ->
  exists w',
    run (map CEnqueue vs) w = Ok (replicate (List.length vs) (RVal JUndefined)) w' /\
    repr w' (l ++ vs) /\ same_host w w'.
Proof.
  induction vs as [|v vs IH]; intros w l Hr; simpl.
  - exists w. rewrite app_nil_r. split_and!; [done|done|apply same_host_refl].
  - destruct (enqueue_spec w l v Hr) as (w1 & E1 & Hr1 & Hs1).
    destruct (IH w1 (l ++ [v]) Hr1) as (w2 & E2 & Hr2 & Hs2).
    exists w2. unfold bind at 1 2. rewrite E1. unfold ret at 1.
    unfold bind. rewrite E2. rewrite <- app_assoc in Hr2.
    split_and!; [done|done|eapply same_host_trans; eauto].
Qed.

Lemma same_host_worker w w' :
  same_host w w' ->
  dequeueWorkerCallback (this w') = dequeueWorkerCallback (this w).
Proof. intros (Hp & _). unfold policy in Hp. congruence. Qed.

Lemma run_dequeues l : forall w,
  repr w l ->
  is_function (dequeueWorkerCallback (this w)) = false ->
  exists w',
    run (replicate (List.length l) (CDequeue (ArgNum 1))) w =
      Ok (map (fun v => RArray [v]) l) w' /\
    repr w' [] /\ same_host w w'.
Proof.
  induction l as [|v l IH]; intros w Hr Hf; simpl.
  - exists w. split_and!; [done|done|apply same_host_refl].
  - destruct (dequeue_one_spec w v l Hr Hf) as (w1 & E1 & Hr1 & Hs1).
    destruct (IH w1 Hr1) as (w2 & E2 & Hr2 & Hs2).
    { by rewrite (same_host_worker _ _ Hs1). }
    exists w2. unfold bind at 1. rewrite E1.
    unfold bind. rewrite E2.
    split_and!; [done|done|eapply same_host_trans; eauto].
Qed.

(** C1 (FIFO law).  On any reachable queue with no worker configured,
    enqueuing the values [vs] and then dequeuing one element at a time
    ([dequeue(1)]) until everything held has been taken returns each
    element as a one-element batch, in exactly the order of insertion:
    first what the queue already held, then [vs].  None of the calls
    throws, and the queue ends empty. *)
Theorem fifo_order w vs :
  reachable w ->
  is_function (dequeueWorkerCallback (this w)) = false ->
  exists w',
    run (map CEnqueue vs ++
         replicate (List.length (contents w ++ vs)) (CDequeue (ArgNum 1))) w =
      Ok (replicate (List.length vs) (RVal JUndefined) ++
          map (fun v => RArray [v]) (contents w ++ vs)) w' /\
    contents w' = [].
Proof.
  intros Hreach Hf. pose proof (reachable_repr _ Hreach) as Hr.
  destruct (run_enqueues vs w _ Hr) as (w1 & E1 & Hr1 & Hs1).
  destruct (run_dequeues _ w1 Hr1) as (w2 & E2 & Hr2 & _).
  { by rewrite (same_host_worker _ _ Hs1). }
  exists w2. rewrite run_app. unfold bind. rewrite E1, E2.
  split; [done | by apply repr_contents].
Qed.

Lemma fifo_order_witness :
  exists w',
    run (map CEnqueue [JNum 7; JNull; JStr "x"] ++
         replicate 4 (CDequeue (ArgNum 1)))
        (build JNull 1 10 false [CEnqueue (JNum 3)]) =
      Ok ([RVal JUndefined; RVal JUndefined; RVal JUndefined] ++
          [RArray [JNum 3]; RArray [JNum 7]; RArray [JNull]; RArray [JStr "x"]]) w' /\
    contents w' = [].
Proof.
  apply (fifo_order (build JNull 1 10 false [CEnqueue (JNum 3)])
           [JNum 7; JNull; JStr "x"]).
  - apply build_reachable.
  - reflexivity.
Defined.


(** ** Batch extraction *)

(** C2, as written, at a negative request: on a queue holding one
    element, [getDequeueElements(-1)] returns no element and leaves the
    size at 1, whereas [min(-1, 1) = -1] elements and a size of
    [1 - min(-1, 1) = 2] are what the sentence asks for. *)
Lemma batch_size_counterexample :
  let w := build JNull 1 10 false [CEnqueue (JNum 0)] in
  exists els w',
    getDequeueElements (ArgNum (-1)) w = Ok els w' /\
    Z.of_nat (List.length els) <> Z.min (-1) (length (this w)) /\
    length (this w') <> length (this w) - Z.min (-1) (length (this w)).
Proof.
  intros w. exists [], w.
  split; [vm_compute; reflexivity|]. split; vm_compute; discriminate.
Qed.

(** C2 (amended).  On a reachable queue of size [S], a batch request
    [k] makes [getDequeueElements] return the first
    [max(0, min(k, S))] elements in FIFO order, and afterwards the queue
    holds the remaining ones and [size()] is [S - max(0, min(k, S))];
    with [k] left out or [null] the configured [dequeueBatchSize] takes
    the place of [k]. *)
Theorem batch_size w a :
  reachable w ->
  let S := length (this w) in
  let k := match a with ArgNum k => k | _ => dequeueBatchSize (this w) end in
  let n := Z.max 0 (Z.min k S) in
  exists els w',
    getDequeueElements a w = Ok els w' /\
    els = take (Z.to_nat n) (contents w) /\
    Z.of_nat (List.length els) = n /\
    contents w' = drop (Z.to_nat n) (contents w) /\
    size w' = Ok (S - n) w'.
Proof.
  intros Hreach S k n. pose proof (reachable_repr _ Hreach) as Hr.
  destruct (getDequeueElements_spec w _ a Hr) as (w' & E & Hr' & _).
  pose proof (repr_length _ _ Hr) as Hlen. fold S in Hlen.
  assert (Hn : batch_count (dequeueBatchSize (this w)) a (List.length (contents w)) = Z.to_nat n).
  { unfold batch_count, n, k. rewrite <- Hlen. destruct a; lia. }
  rewrite Hn in *.
  exists (take (Z.to_nat n) (contents w)), w'.
  split_and!; [done|done| | |].
  - rewrite length_take. lia.
  - by apply repr_contents.
  - unfold size, bind, getThis, ret. rewrite (repr_length _ _ Hr').
    rewrite length_drop. do 2 f_equal. lia.
Qed.

Lemma batch_size_witness :
  exists els w',
    getDequeueElements (ArgNum 2)
      (build JNull 1 10 false [CEnqueue (JNum 0); CEnqueue (JNum 1); CEnqueue (JNum 2)])
      = Ok els w' /\
    els = [JNum 0; JNum 1] /\
    Z.of_nat (List.length els) = 2 /\
    contents w' = [JNum 2] /\
    size w' = Ok 1 w'.
Proof.
  apply (batch_size
           (build JNull 1 10 false [CEnqueue (JNum 0); CEnqueue (JNum 1); CEnqueue (JNum 2)])
           (ArgNum 2)).
  apply build_reachable.
Defined.

(** C9.  On a reachable queue with no worker configured, [dequeue(k)]
    with a negative [k] returns an empty array and changes nothing:
    [head], [tail], [length] and the rest of the state are as before. *)
Theorem dequeue_negative w k :
  reachable w ->
  is_function (dequeueWorkerCallback (this w)) = false ->
  k < 0 ->
  dequeue (ArgNum k) w = Ok (RArray []) w.
Proof.
  intros Hreach Hf Hk. pose proof (reachable_repr _ Hreach) as Hr.
  rewrite (dequeue_no_worker _ _ Hf).
  unfold bind at 1, getDequeueElements, bind at 1, getThis.
  replace (Z.to_nat (Z.min k (length (this w)))) with 0%nat by lia.
  simpl. unfold bind, getThis, ret.
  destruct (length (this w) =? 0) eqn:Hz; [|done].
  apply Z.eqb_eq in Hz. pose proof (repr_length_zero _ _ Hr Hz) as Hnil.
  rewrite Hnil in Hr. by rewrite (clear_id _ Hr).
Qed.

Lemma dequeue_negative_witness :
  dequeue (ArgNum (-3)) (build JNull 1 10 false [CEnqueue (JNum 0); CEnqueue (JNum 1)])
  = Ok (RArray []) (build JNull 1 10 false [CEnqueue (JNum 0); CEnqueue (JNum 1)]).
Proof.
  apply (dequeue_negative
           (build JNull 1 10 false [CEnqueue (JNum 0); CEnqueue (JNum 1)]) (-3)).
  - apply build_reachable.
  - reflexivity.
  - lia.
Defined.

(** ** Structural invariants *)

Lemma repr_structural w vs : repr w vs -> structural_invariants w.
Proof.
  intros (ls & Hc & Hnd & Hlen & Htl).
  unfold structural_invariants, length_zero_iff_empty, head_is_tail_iff_short.
  rewrite Hlen, Htl.
  inversion Hc as [|l ls' v vs' nx Hl Hc' E1 E2 E3]; subst; simpl.
  - split; split; auto; lia.
  - split.
    + split; [lia | intros [? _]; done].
    + destruct ls' as [|l1 ls1]; simpl; [split; [lia|done]|].
      split; [|lia]. intros Heq. exfalso.
      apply NoDup_cons in Hnd as [Hl_notin _]. apply Hl_notin.
      change (Some l = last (l1 :: ls1)) in Heq. symmetry in Heq.
      apply last_Some in Heq as [l' ->].
      apply list_elem_of_lookup. exists (List.length l').
      by rewrite list_lookup_middle.
Qed.

(** C7.  A freshly constructed queue satisfies both structural
    invariants ([length == 0] iff [head] and [tail] are both [null];
    [head == tail] iff [length <= 1]), and from any reachable state every
    method call or timer round, among them [enqueue],
    [getDequeueElement], [getDequeueElements] and [clear], completes and
    leaves both invariants in force. *)
Theorem structural_invariants_preserved :
  (forall cb bs delay manual, structural_invariants (new cb bs delay manual)) /\
  (forall w c,
     reachable w ->
     structural_invariants w /\
     exists r w', exec c w = Ok r w' /\ structural_invariants w').
Proof.
  split.
  - intros. eapply repr_structural, new_repr.
  - intros w c Hreach. pose proof (reachable_repr _ Hreach) as Hr.
    split; [by eapply repr_structural|].
    destruct (exec_repr c w _ Hr) as (r & w' & vs' & E & Hr').
    exists r, w'. split; [done | by eapply repr_structural].
Qed.

Lemma structural_invariants_preserved_witness :
  (forall cb bs delay manual, structural_invariants (new cb bs delay manual)) /\
  (structural_invariants (build JNull 1 10 false [CEnqueue (JNum 0); CEnqueue (JNum 1)]) /\
   exists r w',
     exec CGetDequeueElement
       (build JNull 1 10 false [CEnqueue (JNum 0); CEnqueue (JNum 1)]) = Ok r w' /\
     structural_invariants w').
Proof.
  destruct structural_invariants_preserved as [Hnew Hstep].
  split; [exact Hnew|].
  apply (Hstep (build JNull 1 10 false [CEnqueue (JNum 0); CEnqueue (JNum 1)])
           CGetDequeueElement).
  apply build_reachable.
Defined.


(** ** [clear] *)

(** C8.  [clear()] completes on every state, leaves [head] and [tail]
    [null] and [length] 0, and changes neither the worker callback, the
    batch size, the delay nor [manualStop] (nor the worker log, the
    pending timers or the heap); on a reachable queue that is already
    empty it changes nothing at all. *)
Theorem clear_frame :
  (forall w, exists w',
     clear w = Ok tt w' /\
     head (this w') = None /\ tail (this w') = None /\ length (this w') = 0 /\
     dequeueWorkerCallback (this w') = dequeueWorkerCallback (this w) /\
     dequeueBatchSize (this w') = dequeueBatchSize (this w) /\
     dequeueDelay (this w') = dequeueDelay (this w) /\
     manualStop (this w') = manualStop (this w) /\
     calls w' = calls w /\ timers w' = timers w /\ heap w' = heap w) /\
  (forall w, reachable w -> length (this w) = 0 -> clear w = Ok tt w).
Proof.
  split.
  - intros w. eexists. split; [reflexivity|]. simpl. by split_and!.
  - intros w Hreach Hz. pose proof (reachable_repr _ Hreach) as Hr.
    rewrite (repr_length_zero _ _ Hr Hz) in Hr. by apply clear_id.
Qed.

Lemma clear_frame_witness :
  clear (build JNull 3 10 true [CEnqueue (JNum 0); CDequeue ArgUndefined])
  = Ok tt (build JNull 3 10 true [CEnqueue (JNum 0); CDequeue ArgUndefined]).
Proof.
  destruct clear_frame as [_ Hidem].
  apply (Hidem (build JNull 3 10 true [CEnqueue (JNum 0); CDequeue ArgUndefined])).
  - apply build_reachable.
  - reflexivity.
Defined.

(** ** [dequeue] and the worker *)



(** ** Starting the loop without a worker *)

(** C6.  Whenever the worker callback is not a function ([null]
    included), [startAutoDequeue()] returns [false] without throwing and
    leaves the whole state as it was: same queue contents and length, no
    worker call, no timer registered.  This is in particular the case
    after [removeDequeueWorkerCallback()]. *)
Theorem startAutoDequeue_not_configured :
  (forall w,
     is_function (dequeueWorkerCallback (this w)) = false ->
     startAutoDequeue w = Ok (JBool false) w) /\
  (forall w, exists w1,
     removeDequeueWorkerCallback w = Ok tt w1 /\
     startAutoDequeue w1 = Ok (JBool false) w1).
Proof.
  split.
  - intros w Hf. by apply startAutoDequeue_none.
  - intros w. eexists. split; [reflexivity|]. by apply startAutoDequeue_none.
Qed.

Lemma startAutoDequeue_not_configured_witness :
  startAutoDequeue (build (JStr "worker") 2 10 true [CEnqueue (JNum 0)])
  = Ok (JBool false) (build (JStr "worker") 2 10 true [CEnqueue (JNum 0)]).
Proof.
  destruct startAutoDequeue_not_configured as [Hnone _].
  apply (Hnone (build (JStr "worker") 2 10 true [CEnqueue (JNum 0)])).
  reflexivity.
Defined.

(** ** The auto-dequeue loop *)

Lemma fireTimer_cons w d rest :
  timers w = d :: rest ->
  fireTimer w = (startAutoDequeue ;;; ret tt) (with_timers w rest).
Proof. intros Ht. unfold fireTimer. by rewrite Ht. Qed.

(** A timer round on a queue with a worker and automatic stop: nothing
    happens when the queue is empty; otherwise one batch goes to the
    worker and the next round is registered. *)
Lemma fireTimer_idle w d rest :
  repr w [] ->
  is_function (dequeueWorkerCallback (this w)) = true ->
  manualStop (this w) = false ->
  timers w = d :: rest ->
  fireTimer w = Ok tt (with_timers w rest).
Proof.
  intros Hr Hf Hms Ht. rewrite (fireTimer_cons _ _ _ Ht). unfold bind.
  by rewrite (startAutoDequeue_idle _ (repr_with_timers _ rest _ Hr) Hf Hms).
Qed.

Lemma fireTimer_round w vs d rest :
  repr w vs ->
  is_function (dequeueWorkerCallback (this w)) = true ->
  manualStop (this w) = true \/ vs <> [] ->
  timers w = d :: rest ->
  let n := batch_count (dequeueBatchSize (this w)) ArgNull (List.length vs) in
  exists w',
    fireTimer w = Ok tt w' /\
    repr w' (drop n vs) /\
    policy (this w') = policy (this w) /\
    calls w' = calls w ++ [(take n vs, bool_decide (drop n vs = []))] /\
    timers w' = rest ++ [dequeueDelay (this w)].
Proof.
  intros Hr Hf Hgo Ht n. rewrite (fireTimer_cons _ _ _ Ht).
  destruct (startAutoDequeue_round _ vs (repr_with_timers _ rest _ Hr) Hf Hgo)
    as (w' & E & Hr' & Hp & Hc & Htm).
  exists w'. unfold bind. rewrite E. by split_and!.
Qed.

(** C4, as written, fails both ways.  With [manualStop = true], a worker
    and an empty queue, the round pending when [stopAutoDequeue()] is
    called makes no worker call at all.  With elements still queued, that
    round makes its worker call and registers a further round, which
    runs and calls the worker again. *)
Lemma stop_pending_round_counterexample :
  let w := build (JFun 0) 1 10 true [CStartAutoDequeue] in
  let v := build (JFun 0) 1 10 true
             [CEnqueue (JNum 1); CEnqueue (JNum 2); CEnqueue (JNum 3);
              CStartAutoDequeue] in
  (timers w = [10] /\
   exists w', (stopAutoDequeue ;;; fireTimer) w = Ok tt w' /\
     ~ (exists c, calls w' = calls w ++ [c])) /\
  (timers v = [10] /\
   exists v' v'', (stopAutoDequeue ;;; fireTimer) v = Ok tt v' /\
     timers v' <> [] /\
     fireTimer v' = Ok tt v'' /\
     calls v'' = calls v ++ [([JNum 2], false); ([JNum 3], true)]).
Proof.
  split.
  - split; [reflexivity|]. eexists. split; [vm_compute; reflexivity|].
    intros [c Hc]. vm_compute in Hc. discriminate.
  - split; [reflexivity|]. do 2 eexists.
    split; [vm_compute; reflexivity|].
    split; [vm_compute; discriminate|].
    split; vm_compute; reflexivity.
Qed.

(** C4 (amended).  On a reachable queue with a worker and a round
    pending, [stopAutoDequeue()] sets [manualStop] to [false] and
    touches nothing else: the node heap, [head], [tail], [length], the
    worker callback, the batch size, the delay and the worker log are
    as before, and the pending round stays registered.  When that
    round fires it checks the length first.  If the queue is empty it
    makes no worker call and registers nothing.  If the queue holds
    elements it makes exactly one worker call, with the next batch, and
    registers the next round. *)
Theorem stop_pending_round w d rest :
  reachable w ->
  is_function (dequeueWorkerCallback (this w)) = true ->
  timers w = d :: rest ->
  exists w1,
    stopAutoDequeue w = Ok tt w1 /\
    manualStop (this w1) = false /\
    heap w1 = heap w /\
    head (this w1) = head (this w) /\
    tail (this w1) = tail (this w) /\
    length (this w1) = length (this w) /\
    timers w1 = d :: rest /\ calls w1 = calls w /\ contents w1 = contents w /\
    dequeueWorkerCallback (this w1) = dequeueWorkerCallback (this w) /\
    dequeueBatchSize (this w1) = dequeueBatchSize (this w) /\
    dequeueDelay (this w1) = dequeueDelay (this w) /\
    (contents w = [] -> fireTimer w1 = Ok tt (with_timers w1 rest)) /\
    (contents w <> [] ->
     let n := batch_count (dequeueBatchSize (this w)) ArgNull (List.length (contents w)) in
     exists w2,
       fireTimer w1 = Ok tt w2 /\
       calls w2 = calls w ++ [(take n (contents w), bool_decide (contents w2 = []))] /\
       contents w2 = drop n (contents w) /\
       timers w2 = rest ++ [dequeueDelay (this w)] /\
       manualStop (this w2) = false).
Proof.
  intros Hreach Hf Ht. pose proof (reachable_repr _ Hreach) as Hr.
  pose (w1 := mkWorld (heap w)
                (mkQueue (head (this w)) (tail (this w)) (length (this w))
                   (dequeueWorkerCallback (this w)) (dequeueBatchSize (this w))
                   (dequeueDelay (this w)) false)
                (calls w) (timers w)).
  exists w1. split; [reflexivity|].
  assert (Hr1 : repr w1 (contents w)).
  { destruct Hr as (ls & ?). by exists ls. }
  split_and!; try done.
  - intros Hnil. rewrite Hnil in Hr1.
    by apply (fireTimer_idle w1 d rest).
  - intros Hne n.
    destruct (fireTimer_round w1 _ d rest Hr1 Hf (or_intror Hne) Ht)
      as (w2 & E & Hr2 & Hp & Hc & Htm).
    exists w2. change (batch_count (dequeueBatchSize (this w1)) ArgNull) with (batch_count (dequeueBatchSize (this w)) ArgNull) in *.
    fold n in Hr2, Hc. rewrite (repr_contents _ _ Hr2).
    split_and!; try done.
    unfold policy in Hp. simpl in Hp. congruence.
Qed.

Lemma stop_pending_round_witness :
  exists w1,
    stopAutoDequeue (build (JFun 0) 1 10 true [CStartAutoDequeue]) = Ok tt w1 /\
    manualStop (this w1) = false /\
    fireTimer w1 = Ok tt (with_timers w1 []).
Proof.
  destruct (stop_pending_round (build (JFun 0) 1 10 true [CStartAutoDequeue]) 10 [])
    as (w1 & E & Hms & _ & _ & _ & _ & _ & _ & _ & _ & _ & _ & Hidle & _).
  - apply build_reachable.
  - reflexivity.
  - reflexivity.
  - exists w1. split; [exact E|]. split; [exact Hms|]. apply Hidle. reflexivity.
Defined.


Lemma settle_done fuel w : timers w = [] -> settle fuel w = Some (Ok tt w).
Proof. intros Ht. destruct fuel; simpl; by rewrite Ht. Qed.

Lemma settle_step fuel w w' d rest :
  timers w = d :: rest -> fireTimer w = Ok tt w' ->
  settle (S fuel) w = settle fuel w'.
Proof. intros Ht E. simpl. by rewrite Ht, E. Qed.

Lemma settle_out_of_fuel w d rest : timers w = d :: rest -> settle 0 w = None.
Proof. intros Ht. simpl. by rewrite Ht. Qed.

Lemma policy_fields q q' :
  policy q' = policy q ->
  dequeueWorkerCallback q' = dequeueWorkerCallback q /\
  dequeueBatchSize q' = dequeueBatchSize q /\
  dequeueDelay q' = dequeueDelay q /\
  manualStop q' = manualStop q.
Proof. unfold policy. intros [= -> -> -> ->]. done. Qed.

(** C5, as written, at the queue [1..5] with batch size 2: the round
    whose extraction empties the queue (the third worker call) still
    registers a round. *)
Lemma auto_dequeue_five_counterexample :
  let w := build (JFun 0) 2 10 false
             [CEnqueue (JNum 1); CEnqueue (JNum 2); CEnqueue (JNum 3);
              CEnqueue (JNum 4); CEnqueue (JNum 5)] in
  exists w3,
    (startAutoDequeue ;;; fireTimer ;;; fireTimer) w = Ok tt w3 /\
    calls w3 = [([JNum 1; JNum 2], false); ([JNum 3; JNum 4], false);
                ([JNum 5], true)] /\
    contents w3 = [] /\
    timers w3 <> [].
Proof.
  eexists. split; [vm_compute; reflexivity|].
  split; [reflexivity|]. split; [reflexivity|]. vm_compute. discriminate.
Qed.

(** C5 (amended).  With a worker configured, [manualStop = false],
    [dequeueBatchSize = 2], five elements queued and no round pending,
    [startAutoDequeue()] followed by the pending rounds invokes the
    worker exactly three times, with the batches of sizes 2, 2, 1 in
    order, the last call alone receiving [isEmpty = true].  The round
    that empties the queue still registers one more round: two timer
    rounds do not settle the loop, three do; that last round finds the
    queue empty, makes no worker call and registers nothing, so the
    loop ends with the queue empty and no timer pending. *)
Theorem auto_dequeue_five w a b c d e :
  reachable w ->
  is_function (dequeueWorkerCallback (this w)) = true ->
  manualStop (this w) = false ->
  dequeueBatchSize (this w) = 2 ->
  contents w = [a; b; c; d; e] ->
  timers w = [] ->
  exists w1 w',
    startAutoDequeue w = Ok JUndefined w1 /\
    settle 2 w1 = None /\
    (forall fuel, (3 <= fuel)%nat -> settle fuel w1 = Some (Ok tt w')) /\
    calls w' = calls w ++ [([a; b], false); ([c; d], false); ([e], true)] /\
    contents w' = [] /\
    timers w' = [].
Proof.
  intros Hreach Hf Hms Hbs Hcont Ht.
  pose proof (reachable_repr _ Hreach) as Hr. rewrite Hcont in Hr.
  destruct (startAutoDequeue_round w _ Hr Hf) as (w1 & E1 & Hr1 & Hp1 & Hc1 & Ht1);
    [by right|].
  unfold batch_count in Hr1, Hc1. rewrite Hbs in Hr1, Hc1. simpl in Hr1, Hc1.
  rewrite Ht in Ht1. simpl in Ht1.
  destruct (policy_fields _ _ Hp1) as (Hcb1 & Hb1 & Hd1 & Hm1).
  assert (Hf1 : is_function (dequeueWorkerCallback (this w1)) = true) by congruence.
  assert (Hbs1 : dequeueBatchSize (this w1) = 2) by congruence.
  assert (Hms1 : manualStop (this w1) = false) by congruence.
  assert (Hgo1 : manualStop (this w1) = true \/ [c; d; e] <> []) by (by right).
  destruct (fireTimer_round w1 [c; d; e] _ [] Hr1 Hf1 Hgo1 Ht1)
    as (w2 & E2 & Hr2 & Hp2 & Hc2 & Ht2).
  unfold batch_count in Hr2, Hc2. rewrite Hbs1 in Hr2, Hc2. simpl in Hr2, Hc2, Ht2.
  destruct (policy_fields _ _ Hp2) as (Hcb2 & Hb2 & Hd2 & Hm2).
  assert (Hf2 : is_function (dequeueWorkerCallback (this w2)) = true) by congruence.
  assert (Hbs2 : dequeueBatchSize (this w2) = 2) by congruence.
  assert (Hms2 : manualStop (this w2) = false) by congruence.
  assert (Hgo2 : manualStop (this w2) = true \/ [e] <> []) by (by right).
  destruct (fireTimer_round w2 [e] _ [] Hr2 Hf2 Hgo2 Ht2)
    as (w3 & E3 & Hr3 & Hp3 & Hc3 & Ht3).
  unfold batch_count in Hr3, Hc3. rewrite Hbs2 in Hr3, Hc3. simpl in Hr3, Hc3, Ht3.
  destruct (policy_fields _ _ Hp3) as (Hcb3 & Hb3 & Hd3 & Hm3).
  assert (Hf3 : is_function (dequeueWorkerCallback (this w3)) = true) by congruence.
  assert (Hms3 : manualStop (this w3) = false) by congruence.
  pose proof (fireTimer_idle w3 _ [] Hr3 Hf3 Hms3 Ht3) as E4.
  exists w1, (with_timers w3 []). split_and!.
  - exact E1.
  - rewrite (settle_step 1 w1 w2 _ _ Ht1 E2).
    rewrite (settle_step 0 w2 w3 _ _ Ht2 E3).
    by apply (settle_out_of_fuel w3 _ _ Ht3).
  - intros fuel Hfuel.
    destruct fuel as [|[|[|fuel]]]; [lia|lia|lia|].
    rewrite (settle_step _ w1 w2 _ _ Ht1 E2).
    rewrite (settle_step _ w2 w3 _ _ Ht2 E3).
    rewrite (settle_step _ w3 _ _ _ Ht3 E4).
    by apply settle_done.
  - simpl. rewrite Hc3, Hc2, Hc1. by rewrite <- !app_assoc.
  - apply repr_contents. by apply repr_with_timers.
  - reflexivity.
Qed.

Lemma auto_dequeue_five_witness :
  exists w1 w',
    startAutoDequeue
      (build (JFun 0) 2 10 false
         [CEnqueue (JNum 1); CEnqueue (JNum 2); CEnqueue (JNum 3);
          CEnqueue (JNum 4); CEnqueue (JNum 5)]) = Ok JUndefined w1 /\
    settle 2 w1 = None /\
    (forall fuel, (3 <= fuel)%nat -> settle fuel w1 = Some (Ok tt w')) /\
    calls w' = [] ++ [([JNum 1; JNum 2], false); ([JNum 3; JNum 4], false);
                      ([JNum 5], true)] /\
    contents w' = [] /\
    timers w' = [].
Proof.
  apply (auto_dequeue_five
           (build (JFun 0) 2 10 false
              [CEnqueue (JNum 1); CEnqueue (JNum 2); CEnqueue (JNum 3);
               CEnqueue (JNum 4); CEnqueue (JNum 5)])
           (JNum 1) (JNum 2) (JNum 3) (JNum 4) (JNum 5)).
  - apply build_reachable.
  - reflexivity.
  - reflexivity.
  - reflexivity.
  - reflexivity.
  - reflexivity.
Defined.

End LinkedProofs.

(** * Properties of the array-cursor queue *)

Module ArrayProofs.
Import ArrayCursor.

Lemma array_new_repr cb bs delay : repr (new cb bs delay) [].
Proof. split; simpl; [lia | intros i v Hi; done]. Qed.

Lemma array_repr_isEmpty w vs :
  repr w vs -> (front (this w) =? rear (this w)) = bool_decide (vs = []).
Proof.
  intros [Hrear _]. rewrite Hrear. destruct vs; simpl.
  - rewrite Z.add_0_r. apply Z.eqb_refl.
  - apply Z.eqb_neq. lia.
Qed.

Lemma array_repr_size w vs :
  repr w vs -> rear (this w) - front (this w) = Z.of_nat (List.length vs).
Proof. intros [Hrear _]. lia. Qed.

Lemma array_clear_repr w : exists w',
  clear w = Ok tt w' /\ repr w' [] /\
  dequeueWorkerCallback (this w') = dequeueWorkerCallback (this w) /\
  dequeueBatchSize (this w') = dequeueBatchSize (this w).
Proof.
  eexists. split; [reflexivity|]. simpl. split_and!; [|done|done].
  split; simpl; [lia | intros i v Hi; done].
Qed.

Lemma array_enqueue_spec w vs v :
  repr w vs ->
  exists w',
    enqueue v w = Ok tt w' /\ repr w' (vs ++ [v]) /\
    dequeueWorkerCallback (this w') = dequeueWorkerCallback (this w) /\
    dequeueBatchSize (this w') = dequeueBatchSize (this w).
Proof.
  intros [Hrear Hitems]. eexists. split; [reflexivity|]. simpl.
  split_and!; [|done|done]. split; simpl.
  - rewrite length_app. simpl. lia.
  - intros i x Hi. destruct (decide (i < List.length vs)%nat) as [Hlt|Hge].
    + rewrite lookup_app_l in Hi by done.
      rewrite lookup_insert_ne by lia. by apply Hitems.
    + rewrite lookup_app_r in Hi by lia.
      destruct (i - List.length vs)%nat as [|j] eqn:Hj; [|by destruct j].
      simpl in Hi. injection Hi as <-.
      replace (front (this w) + Z.of_nat i) with (rear (this w)) by lia.
      apply lookup_insert_eq.
Qed.

Lemma array_getDequeueElement_cons w v vs :
  repr w (v :: vs) ->
  exists w',
    getDequeueElement w = Ok v w' /\ repr w' vs /\
    dequeueWorkerCallback (this w') = dequeueWorkerCallback (this w) /\
    dequeueBatchSize (this w') = dequeueBatchSize (this w).
Proof.
  intros Hr. pose proof (array_repr_isEmpty _ _ Hr) as He.
  destruct Hr as [Hrear Hitems].
  pose proof (Hitems 0%nat v eq_refl) as H0. rewrite Z.add_0_r in H0.
  unfold getDequeueElement, bind, isEmpty, getThis, ret. simpl.
  rewrite He. simpl. unfold getItem. rewrite H0. simpl.
  eexists. split; [reflexivity|]. simpl. split_and!; [|done|done].
  split; simpl.
  - simpl in Hrear. lia.
  - intros i x Hi. rewrite lookup_delete_ne by lia.
    replace (front (this w) + 1 + Z.of_nat i)
      with (front (this w) + Z.of_nat (S i)) by lia.
    by apply Hitems.
Qed.

Lemma array_push_loop_spec n : forall w vs acc,
  repr w vs -> (n <= List.length vs)%nat ->
  exists w',
    push_loop getDequeueElement n acc w = Ok (acc ++ take n vs) w' /\
    repr w' (drop n vs) /\
    dequeueWorkerCallback (this w') = dequeueWorkerCallback (this w) /\
    dequeueBatchSize (this w') = dequeueBatchSize (this w).
Proof.
  induction n as [|n IH]; intros w vs acc Hr Hn.
  - exists w. simpl. rewrite app_nil_r, drop_0. by split_and!.
  - destruct vs as [|v vs]; [simpl in Hn; lia|].
    destruct (array_getDequeueElement_cons _ _ _ Hr) as (w1 & E1 & Hr1 & Hcb1 & Hbs1).
    destruct (IH w1 vs (acc ++ [v]) Hr1) as (w2 & E2 & Hr2 & Hcb2 & Hbs2);
      [simpl in Hn; lia|].
    exists w2. simpl. unfold bind at 1. rewrite E1, E2.
    rewrite <- app_assoc. simpl. split_and!; [done|done|congruence|congruence].
Qed.

Lemma array_getDequeueElements_spec w vs a :
  repr w vs ->
  let n := batch_count (dequeueBatchSize (this w)) a (List.length vs) in
  exists w',
    getDequeueElements a w = Ok (take n vs) w' /\
    repr w' (drop n vs) /\
    dequeueWorkerCallback (this w') = dequeueWorkerCallback (this w) /\
    dequeueBatchSize (this w') = dequeueBatchSize (this w).
Proof.
  intros Hr n.
  destruct (array_push_loop_spec n w vs [] Hr (LinkedProofs.batch_count_le _ _ _))
    as (w1 & E1 & Hr1 & Hcb1 & Hbs1).
  unfold getDequeueElements, bind at 1, size, bind at 1, getThis, ret.
  unfold bind at 1. rewrite (array_repr_size _ _ Hr).
  replace (Z.to_nat
             match a with
             | ArgNum k => Z.min k (Z.of_nat (List.length vs))
             | _ => Z.min (dequeueBatchSize (this w)) (Z.of_nat (List.length vs))
             end) with n by (unfold n, batch_count; by destruct a).
  unfold bind at 1. rewrite E1. simpl.
  unfold bind at 1, isEmpty, bind at 1, getThis, ret.
  destruct (front (this w1) =? rear (this w1)) eqn:He.
  - rewrite (array_repr_isEmpty _ _ Hr1) in He. apply bool_decide_eq_true in He.
    destruct (array_clear_repr w1) as (w2 & E2 & Hr2 & Hcb2 & Hbs2).
    exists w2. unfold bind. rewrite E2. rewrite He.
    split_and!; [done|done|congruence|congruence].
  - exists w1. by split_and!.
Qed.

Lemma array_peek_spec w vs :
  repr w vs -> peek w = Ok (default JNull (vs !! 0%nat)) w.
Proof.
  intros Hr. pose proof (array_repr_isEmpty _ _ Hr) as He.
  unfold peek, isEmpty, bind, getThis, ret. simpl. rewrite He.
  destruct vs as [|v vs]; simpl; [done|].
  destruct Hr as [_ Hitems].
  pose proof (Hitems 0%nat v eq_refl) as H0. rewrite Z.add_0_r in H0.
  unfold getItem. by rewrite H0.
Qed.

End ArrayProofs.

(** * The two implementations agree on the synchronous interface *)

Module Equivalence.

Lemma sim_new cb bs delay manual :
  is_function cb = false ->
  sim (Linked.new cb bs delay manual) (ArrayCursor.new cb bs delay).
Proof.
  intros Hf. exists [].
  split; [apply LinkedProofs.new_repr|].
  split; [apply ArrayProofs.array_new_repr|]. by split_and!.
Qed.

Lemma array_dequeue_no_worker w a :
  is_function (ArrayCursor.dequeueWorkerCallback (ArrayCursor.this w)) = false ->
  ArrayCursor.dequeue a w =
    (elements <- ArrayCursor.getDequeueElements
                   (match a with ArgUndefined => ArgNum 1 | _ => a end) ;;
     ret (RArray elements)) w.
Proof.
  intros Hf. unfold ArrayCursor.dequeue, bind at 1, ArrayCursor.getThis.
  by rewrite LinkedProofs.worker_test, Hf.
Qed.

(** One call keeps the two queues in step and returns the same value
    on both. *)
Lemma sim_step lw aw c :
  sim lw aw ->
  exists r lw' aw',
    Linked.exec (Linked.sync c) lw = Ok r lw' /\
    ArrayCursor.exec_sync c aw = Ok r aw' /\
    sim lw' aw'.
Proof.
  intros (vs & Hl & Ha & Hfl & Hfa & Hbs).
  destruct c as [v|a| | | |]; simpl.
  - destruct (LinkedProofs.enqueue_spec lw vs v Hl) as (lw' & El & Hl' & Hsl).
    destruct (ArrayProofs.array_enqueue_spec aw vs v Ha) as (aw' & Ea & Ha' & Hcb & Hb).
    exists (RVal JUndefined), lw', aw'. unfold bind. rewrite El, Ea.
    split; [done|]. split; [done|]. exists (vs ++ [v]).
    destruct (LinkedProofs.policy_fields _ _ (proj1 Hsl)) as (Hcbl & Hbl & _).
    split_and!; [done|done|congruence|congruence|congruence].
  - rewrite (LinkedProofs.dequeue_no_worker _ _ Hfl).
    rewrite (array_dequeue_no_worker _ _ Hfa).
    set (a' := match a with ArgUndefined => ArgNum 1 | _ => a end).
    destruct (LinkedProofs.getDequeueElements_spec lw vs a' Hl)
      as (lw' & El & Hl' & Hsl & _).
    destruct (ArrayProofs.array_getDequeueElements_spec aw vs a' Ha)
      as (aw' & Ea & Ha' & Hcb & Hb).
    rewrite <- Hbs in Ea, Ha'.
    eexists _, lw', aw'. unfold bind. rewrite El, Ea.
    split; [reflexivity|]. split; [reflexivity|]. eexists.
    destruct (LinkedProofs.policy_fields _ _ (proj1 Hsl)) as (Hcbl & Hbl & _).
    split_and!; [exact Hl'|exact Ha'|congruence|congruence|congruence].
  - exists (RVal (default JNull (vs !! 0%nat))), lw, aw. unfold bind.
    rewrite (LinkedProofs.peek_spec _ _ Hl), (ArrayProofs.array_peek_spec _ _ Ha).
    split; [done|]. split; [done|]. exists vs. by split_and!.
  - exists (RVal (JNum (Z.of_nat (List.length vs)))), lw, aw.
    unfold bind, Linked.size, ArrayCursor.size, bind, Linked.getThis,
      ArrayCursor.getThis, ret.
    rewrite (LinkedProofs.repr_length _ _ Hl), (ArrayProofs.array_repr_size _ _ Ha).
    split; [done|]. split; [done|]. exists vs. by split_and!.
  - exists (RVal (JBool (bool_decide (vs = [])))), lw, aw.
    unfold bind, Linked.isEmpty, ArrayCursor.isEmpty, bind, Linked.getThis,
      ArrayCursor.getThis, ret.
    rewrite (LinkedProofs.repr_isEmpty _ _ Hl), (ArrayProofs.array_repr_isEmpty _ _ Ha).
    split; [done|]. split; [done|]. exists vs. by split_and!.
  - destruct (LinkedProofs.clear_spec lw) as (lw' & El & Hl' & Hsl & _).
    destruct (ArrayProofs.array_clear_repr aw) as (aw' & Ea & Ha' & Hcb & Hb).
    exists (RVal JUndefined), lw', aw'. unfold bind. rewrite El, Ea.
    split; [done|]. split; [done|]. exists [].
    destruct (LinkedProofs.policy_fields _ _ (proj1 Hsl)) as (Hcbl & Hbl & _).
    split_and!; [done|done|congruence|congruence|congruence].
Qed.

Lemma sim_run cs : forall lw aw,
  sim lw aw ->
  exists rs lw' aw',
    Linked.run (map Linked.sync cs) lw = Ok rs lw' /\
    ArrayCursor.run cs aw = Ok rs aw' /\
    sim lw' aw'.
Proof.
  induction cs as [|c cs IH]; intros lw aw Hsim; simpl.
  - exists [], lw, aw. by split_and!.
  - destruct (sim_step lw aw c Hsim) as (r & lw1 & aw1 & El & Ea & Hsim1).
    destruct (IH lw1 aw1 Hsim1) as (rs & lw2 & aw2 & El2 & Ea2 & Hsim2).
    exists (r :: rs), lw2, aw2. unfold bind. rewrite El, Ea, El2, Ea2.
    by split_and!.
Qed.

(** C10.  Two queues built with the same arguments, the worker not
    being a function, answer every sequence of [enqueue], [dequeue],
    [peek], [size], [isEmpty] and [clear] calls alike: both
    implementations complete every call and return the same sequence of
    values. *)
Theorem implementations_agree cb bs delay manual cs :
  is_function cb = false ->
  exists rs,
    returned (Linked.run (map Linked.sync cs) (Linked.new cb bs delay manual)) = Some rs /\
    returned (ArrayCursor.run cs (ArrayCursor.new cb bs delay)) = Some rs.
Proof.
  intros Hf.
  destruct (sim_run cs _ _ (sim_new cb bs delay manual Hf))
    as (rs & lw & aw & El & Ea & _).
  exists rs. by rewrite El, Ea.
Qed.

Lemma implementations_agree_witness :
  exists rs,
    returned (Linked.run
                (map Linked.sync
                   [SEnqueue (JNum 1); SEnqueue (JNum 2); SPeek; SSize;
                    SDequeue (ArgNum 5); SIsEmpty; SClear; SDequeue ArgNull])
                (Linked.new JNull 3 10 true)) = Some rs /\
    returned (ArrayCursor.run
                [SEnqueue (JNum 1); SEnqueue (JNum 2); SPeek; SSize;
                 SDequeue (ArgNum 5); SIsEmpty; SClear; SDequeue ArgNull]
                (ArrayCursor.new JNull 3 10)) = Some rs.
Proof.
  apply (implementations_agree JNull 3 10 true
           [SEnqueue (JNum 1); SEnqueue (JNum 2); SPeek; SSize;
            SDequeue (ArgNum 5); SIsEmpty; SClear; SDequeue ArgNull]).
  reflexivity.
Defined.

End Equivalence.

(** * Further properties of the linked-list queue *)

Module LinkedExtras.
Import Linked LinkedProofs.

(** ** Inspection *)

(** X1.  On a reachable queue [peek()] returns the oldest element, or
    [null] when nothing is queued, and changes nothing; on a non-empty
    queue the element it shows is the one the next
    [getDequeueElement()] removes. *)
Theorem peek_oldest w :
  reachable w ->
  peek w = Ok (default JNull (contents w !! 0%nat)) w /\
  (contents w <> [] ->
   exists v w',
     peek w = Ok v w /\ getDequeueElement w = Ok v w' /\
     contents w = v :: contents w').
Proof.
  intros Hreach. pose proof (reachable_repr _ Hreach) as Hr.
  split; [by apply peek_spec|].
  intros Hne. destruct (contents w) as [|v vs] eqn:Hc; [done|].
  destruct (getDequeueElement_cons _ _ _ Hr) as (w' & E & Hr' & _).
  exists v, w'. split_and!; [|done|by rewrite (repr_contents _ _ Hr')].
  rewrite (peek_spec _ _ Hr). done.
Qed.

Lemma peek_oldest_witness :
  peek (build JNull 1 10 false [CEnqueue (JStr "a"); CEnqueue (JStr "b")])
  = Ok (JStr "a") (build JNull 1 10 false [CEnqueue (JStr "a"); CEnqueue (JStr "b")]).
Proof.
  destruct (peek_oldest
              (build JNull 1 10 false [CEnqueue (JStr "a"); CEnqueue (JStr "b")]))
    as [Hpeek _].
  - apply build_reachable.
  - exact Hpeek.
Defined.

(** X2.  On a reachable queue the [next] links from [head] visit
    pairwise distinct nodes and end in [null]; [size()] is the number
    of nodes so visited, the last of them is [tail], [isEmpty()] holds
    exactly when there is none, and neither call changes the state. *)
Theorem size_counts w :
  reachable w ->
  exists ls vs,
    chain (heap w) (head (this w)) ls vs /\
    NoDup ls /\
    tail (this w) = last ls /\
    size w = Ok (Z.of_nat (List.length ls)) w /\
    isEmpty w = Ok (bool_decide (ls = [])) w.
Proof.
  intros Hreach.
  destruct (reachable_repr _ Hreach) as (ls & Hc & Hnd & Hlen & Htl).
  exists ls, (contents w). split_and!; [done|done|done| |].
  - unfold size, bind, getThis, ret. by rewrite Hlen.
  - unfold isEmpty, bind, getThis, ret. rewrite Hlen. by destruct ls.
Qed.

Lemma size_counts_witness :
  exists ls vs,
    chain (heap (build JNull 1 10 false
                   [CEnqueue JNull; CEnqueue JUndefined; CEnqueue (JNum 3);
                    CDequeue ArgUndefined]))
          (head (this (build JNull 1 10 false
                         [CEnqueue JNull; CEnqueue JUndefined; CEnqueue (JNum 3);
                          CDequeue ArgUndefined]))) ls vs /\
    NoDup ls /\
    tail (this (build JNull 1 10 false
                  [CEnqueue JNull; CEnqueue JUndefined; CEnqueue (JNum 3);
                   CDequeue ArgUndefined])) = last ls /\
    size (build JNull 1 10 false
            [CEnqueue JNull; CEnqueue JUndefined; CEnqueue (JNum 3);
             CDequeue ArgUndefined])
    = Ok (Z.of_nat (List.length ls))
         (build JNull 1 10 false
            [CEnqueue JNull; CEnqueue JUndefined; CEnqueue (JNum 3);
             CDequeue ArgUndefined]) /\
    isEmpty (build JNull 1 10 false
               [CEnqueue JNull; CEnqueue JUndefined; CEnqueue (JNum 3);
                CDequeue ArgUndefined])
    = Ok (bool_decide (ls = []))
         (build JNull 1 10 false
            [CEnqueue JNull; CEnqueue JUndefined; CEnqueue (JNum 3);
             CDequeue ArgUndefined]).
Proof.
  apply (size_counts
           (build JNull 1 10 false
              [CEnqueue JNull; CEnqueue JUndefined; CEnqueue (JNum 3);
               CDequeue ArgUndefined])).
  apply build_reachable.
Defined.

(** ** Mutation *)

(** X3.  On a reachable queue [enqueue(v)] never throws, puts [v]
    behind everything already queued, raises [size()] by one, and
    leaves the drain policy, the worker log and the pending timers
    alone. *)
Theorem enqueue_appends w v :
  reachable w ->
  exists w',
    enqueue v w = Ok tt w' /\
    contents w' = contents w ++ [v] /\
    length (this w') = length (this w) + 1 /\
    policy (this w') = policy (this w) /\
    calls w' = calls w /\ timers w' = timers w.
Proof.
  intros Hreach. pose proof (reachable_repr _ Hreach) as Hr.
  destruct (enqueue_spec w _ v Hr) as (w' & E & Hr' & Hp & Hc & Ht).
  exists w'. split_and!; try done.
  - by apply repr_contents.
  - rewrite (repr_length _ _ Hr'), (repr_length _ _ Hr), length_app. simpl. lia.
Qed.

Lemma enqueue_appends_witness :
  exists w',
    enqueue (JNum 9) (build JNull 1 10 false [CEnqueue (JNum 8)]) = Ok tt w' /\
    contents w' = [JNum 8; JNum 9].
Proof.
  destruct (enqueue_appends (build JNull 1 10 false [CEnqueue (JNum 8)]) (JNum 9))
    as (w' & E & Hc & _).
  - apply build_reachable.
  - exists w'. split; [exact E | exact Hc].
Defined.

(** X4.  On a reachable queue [getDequeueElement()] returns [null] and
    changes nothing when the queue is empty; otherwise it returns the
    oldest element, removes exactly that one, lowers [length] by one and
    leaves the heap of nodes, the policy, the worker log and the timers
    as they were. *)
Theorem getDequeueElement_oldest w :
  reachable w ->
  (contents w = [] -> getDequeueElement w = Ok JNull w) /\
  (forall v vs,
     contents w = v :: vs ->
     exists w',
       getDequeueElement w = Ok v w' /\
       contents w' = vs /\
       length (this w') = length (this w) - 1 /\
       heap w' = heap w /\
       policy (this w') = policy (this w) /\
       calls w' = calls w /\ timers w' = timers w).
Proof.
  intros Hreach. pose proof (reachable_repr _ Hreach) as Hr. split.
  - intros Hnil. rewrite Hnil in Hr. by apply getDequeueElement_nil.
  - intros v vs Hc. rewrite Hc in Hr.
    destruct (getDequeueElement_cons _ _ _ Hr) as (w' & E & Hr' & (Hp & Hcl & Ht) & Hh).
    exists w'. split_and!; try done.
    + by apply repr_contents.
    + rewrite (repr_length _ _ Hr'), (repr_length _ _ Hr). simpl. lia.
Qed.

Lemma getDequeueElement_oldest_witness :
  getDequeueElement (build JNull 1 10 false [CEnqueue (JNum 1); CDequeue (ArgNum 3)])
  = Ok JNull (build JNull 1 10 false [CEnqueue (JNum 1); CDequeue (ArgNum 3)]).
Proof.
  destruct (getDequeueElement_oldest
              (build JNull 1 10 false [CEnqueue (JNum 1); CDequeue (ArgNum 3)]))
    as [Hempty _].
  - apply build_reachable.
  - apply Hempty. reflexivity.
Defined.

(** ** Interleaved use *)

Lemma getDequeueElements_contents w vs a :
  repr w vs ->
  exists w',
    getDequeueElements a w =
      Ok (take (batch_count (dequeueBatchSize (this w)) a (List.length vs)) vs) w' /\
    repr w' (drop (batch_count (dequeueBatchSize (this w)) a (List.length vs)) vs) /\
    same_host w w'.
Proof.
  intros Hr. destruct (getDequeueElements_spec w vs a Hr) as (w' & E & Hr' & Hs & _).
  by exists w'.
Qed.

Lemma dequeued_values_cons r rs :
  dequeued_values (r :: rs) = dequeued_values [r] ++ dequeued_values rs.
Proof. unfold dequeued_values. simpl. by rewrite app_nil_r. Qed.

Lemma enqueued_values_cons c cs :
  enqueued_values (c :: cs) = enqueued_values [c] ++ enqueued_values cs.
Proof. unfold enqueued_values. simpl. by rewrite app_nil_r. Qed.

(** X5.  Nothing is lost, duplicated or reordered under interleaving.
    On a reachable queue without a worker, run any sequence of
    [enqueue], [dequeue(k)], [peek], [size] and [isEmpty] calls (no
    [clear]): every call completes, and the elements handed back by the
    [dequeue] calls, in order, followed by what is still queued, are
    exactly what was queued at the start followed by the enqueued
    elements, in order. *)
Theorem interleaving_conserves cs : forall w,
  reachable w ->
  is_function (dequeueWorkerCallback (this w)) = false ->
  forallb (fun c => negb (is_clear c)) cs = true ->
  exists rs w',
    run (map sync cs) w = Ok rs w' /\
    dequeued_values rs ++ contents w' = contents w ++ enqueued_values cs.
Proof.
  induction cs as [|c cs IH]; intros w Hreach Hf Hnc.
  - exists [], w. simpl. by rewrite app_nil_r.
  - simpl in Hnc. apply andb_true_iff in Hnc as [Hc Hnc].
    pose proof (reachable_repr _ Hreach) as Hr.
    assert (Hstep : exists r w1,
               exec (sync c) w = Ok r w1 /\
               is_function (dequeueWorkerCallback (this w1)) = false /\
               dequeued_values [r] ++ contents w1 =
                 contents w ++ enqueued_values [c]).
    { destruct c as [v|a| | | |]; simpl; try done.
      - destruct (enqueue_spec w _ v Hr) as (w1 & E & Hr1 & Hs).
        exists (RVal JUndefined), w1. unfold bind. rewrite E.
        split_and!; [done| |by rewrite (repr_contents _ _ Hr1)].
        by rewrite (same_host_worker _ _ Hs).
      - rewrite (dequeue_no_worker _ _ Hf).
        destruct (getDequeueElements_contents w _
                    (match a with ArgUndefined => ArgNum 1 | _ => a end) Hr)
          as (w1 & E & Hr1 & Hs).
        eexists _, w1. unfold bind. rewrite E. split; [reflexivity|].
        split; [by rewrite (same_host_worker _ _ Hs)|].
        simpl. rewrite (repr_contents _ _ Hr1), !app_nil_r. apply take_drop.
      - exists (RVal (default JNull (contents w !! 0%nat))), w. unfold bind.
        rewrite (peek_spec _ _ Hr). simpl. by rewrite app_nil_r.
      - eexists _, w. split; [reflexivity|]. simpl. by rewrite app_nil_r.
      - eexists _, w. split; [reflexivity|]. simpl. by rewrite app_nil_r. }
    destruct Hstep as (r & w1 & E1 & Hf1 & Heq1).
    destruct (IH w1) as (rs & w' & E & Heq); [|done|done|].
    { eapply reach_call; eauto. }
    exists (r :: rs), w'. split.
    + change (map sync (c :: cs)) with (sync c :: map sync cs). simpl.
      unfold bind. by rewrite E1, E.
    + rewrite (dequeued_values_cons r rs), (enqueued_values_cons c cs).
      rewrite <- app_assoc, Heq, !app_assoc. by rewrite Heq1.
Qed.

Lemma interleaving_conserves_witness :
  exists rs w',
    run (map sync [SEnqueue (JNum 1); SEnqueue (JNum 2); SDequeue ArgUndefined;
                   SEnqueue (JNum 3); SPeek; SDequeue (ArgNum 5); SEnqueue (JNum 4)])
        (build JNull 2 10 false [CEnqueue (JNum 0)]) = Ok rs w' /\
    dequeued_values rs ++ contents w' =
      [JNum 0] ++ [JNum 1; JNum 2; JNum 3; JNum 4].
Proof.
  apply (interleaving_conserves
           [SEnqueue (JNum 1); SEnqueue (JNum 2); SDequeue ArgUndefined;
            SEnqueue (JNum 3); SPeek; SDequeue (ArgNum 5); SEnqueue (JNum 4)]
           (build JNull 2 10 false [CEnqueue (JNum 0)])).
  - apply build_reachable.
  - reflexivity.
  - reflexivity.
Defined.


(** ** The drain loop as a whole *)

Lemma settle_mono n : forall w r m,
  settle n w = Some r -> (n <= m)%nat -> settle m w = Some r.
Proof.
  induction n as [|n IH]; intros w r m Hs Hm.
  - simpl in Hs. destruct (timers w) eqn:Ht; [|done].
    by rewrite (settle_done m w Ht).
  - destruct m as [|m]; [lia|]. simpl in *.
    destruct (timers w); [done|].
    destruct (fireTimer w) as [u w1|]; [|done].
    apply IH; [done|lia].
Qed.

Lemma concat_nonempty_nil (batches : list worker_call) :
  Forall (fun c => fst c <> []) batches ->
  concat (map fst batches) = [] -> batches = [].
Proof.
  intros Hall Hc. destruct batches as [|[b f] batches]; [done|].
  apply Forall_cons in Hall as [Hb _]. simpl in *.
  by destruct b.
Qed.

(** With a worker, automatic stop and a positive batch size, the
    pending rounds drain the queue and then die out. *)
Lemma drain_rounds n : forall w vs d rest,
  repr w vs ->
  is_function (dequeueWorkerCallback (this w)) = true ->
  manualStop (this w) = false ->
  1 <= dequeueBatchSize (this w) ->
  timers w = d :: rest ->
  (List.length vs + S (List.length rest) <= n)%nat ->
  exists w' batches,
    settle n w = Some (Ok tt w') /\
    repr w' [] /\ timers w' = [] /\
    calls w' = calls w ++ batches /\
    concat (map fst batches) = vs /\
    Forall (fun c => fst c <> [] /\
                     Z.of_nat (List.length (fst c)) <= dequeueBatchSize (this w))
      batches /\
    (forall i c, batches !! i = Some c ->
       snd c = bool_decide (S i = List.length batches)).
Proof.
  induction n as [|n IH]; intros w vs d rest Hr Hf Hms Hbs Ht Hn; [lia|].
  destruct vs as [|v vs0].
  - pose proof (fireTimer_idle w d rest Hr Hf Hms Ht) as E.
    rewrite (settle_step n w _ d rest Ht E).
    destruct rest as [|d' rest'].
    + exists (with_timers w []), []. rewrite settle_done by done.
      rewrite app_nil_r. by split_and!.
    + destruct (IH (with_timers w (d' :: rest')) [] d' rest') as
        (w' & batches & Es & Hr' & Ht' & Hc' & Hcat & Hall & Hfl);
        [by apply repr_with_timers|done|done|done|done|simpl in *; lia|].
      exists w', batches. by split_and!.
  - set (vs := v :: vs0) in *.
    assert (Hgo : manualStop (this w) = true \/ vs <> []) by (by right).
    destruct (fireTimer_round w vs d rest Hr Hf Hgo Ht)
      as (w1 & E & Hr1 & Hp1 & Hc1 & Ht1).
    set (k := batch_count (dequeueBatchSize (this w)) ArgNull (List.length vs)) in *.
    assert (Hk : (1 <= k <= List.length vs)%nat /\
                 Z.of_nat k <= dequeueBatchSize (this w)).
    { unfold k, batch_count, vs. simpl List.length. lia. }
    destruct (policy_fields _ _ Hp1) as (Hcb1 & Hb1 & Hd1 & Hm1).
    destruct (rest ++ [dequeueDelay (this w)]) as [|d1 rest1] eqn:Hrest.
    { by destruct rest. }
    assert (Hlen1 : List.length rest1 = List.length rest).
    { apply (f_equal List.length) in Hrest. rewrite length_app in Hrest.
      simpl in Hrest. lia. }
    destruct (IH w1 (drop k vs) d1 rest1) as
      (w' & batches & Es & Hr' & Ht' & Hc' & Hcat & Hall & Hfl);
      [done|congruence|congruence|lia|done| |].
    { rewrite length_drop, Hlen1. fold vs in Hn. lia. }
    rewrite (settle_step n w w1 d rest Ht E).
    exists w', ((take k vs, bool_decide (drop k vs = [])) :: batches).
    split_and!; try done.
    + rewrite Hc', Hc1. by rewrite <- app_assoc.
    + simpl. rewrite Hcat. apply take_drop.
    + apply Forall_cons. split.
      * simpl. split.
        -- unfold vs. destruct k; [lia|done].
        -- rewrite length_take. lia.
      * rewrite Hb1 in Hall. exact Hall.
    + intros [|i] c Hi; simpl in Hi.
      * injection Hi as <-. simpl. apply bool_decide_ext. split.
        -- intros Hd. rewrite Hd in Hcat.
           rewrite (concat_nonempty_nil batches); [done| |done].
           eapply Forall_impl; [exact Hall|]. by intros c [? _].
        -- intros Hl. destruct batches; [|simpl in Hl; lia].
           by rewrite <- Hcat.
      * rewrite (Hfl i c Hi). apply bool_decide_ext. simpl. lia.
Qed.

(** X6.  Auto-dequeue delivers everything, once, in order, and stops.
    On a reachable queue with a worker, [manualStop = false] and a
    batch size of at least 1, [startAutoDequeue()] followed by the
    pending timer rounds ends after at most (queued elements + rounds
    pending at the start) rounds with the queue empty and no timer left.
    The batches given to the worker on the way, concatenated, are
    exactly the queued elements in FIFO order; every batch is non-empty
    and no longer than the batch size; and [isEmpty] is [true] in the
    last worker call only. *)
Theorem auto_dequeue_drains w :
  reachable w ->
  is_function (dequeueWorkerCallback (this w)) = true ->
  manualStop (this w) = false ->
  1 <= dequeueBatchSize (this w) ->
  exists w1 w' batches,
    startAutoDequeue w = Ok JUndefined w1 /\
    (forall fuel,
       (List.length (contents w) + List.length (timers w) <= fuel)%nat ->
       settle fuel w1 = Some (Ok tt w')) /\
    contents w' = [] /\ timers w' = [] /\
    calls w' = calls w ++ batches /\
    concat (map fst batches) = contents w /\
    Forall (fun c => fst c <> [] /\
                     Z.of_nat (List.length (fst c)) <= dequeueBatchSize (this w))
      batches /\
    (forall i c, batches !! i = Some c ->
       snd c = bool_decide (S i = List.length batches)).
Proof.
  intros Hreach Hf Hms Hbs. pose proof (reachable_repr _ Hreach) as Hr.
  destruct (contents w) as [|v vs0] eqn:Hcont.
  - pose proof (startAutoDequeue_idle w Hr Hf Hms) as E.
    destruct (timers w) as [|d rest] eqn:Ht.
    + exists w, w, []. rewrite app_nil_r. split_and!; try done.
      intros fuel _. by apply settle_done.
    + destruct (drain_rounds (0 + List.length (d :: rest)) w [] d rest)
        as (w' & batches & Es & Hr' & Ht' & Hc' & Hcat & Hall & Hfl);
        [done|done|done|done|done|simpl; lia|].
      exists w, w', batches. split_and!; try done.
      * intros fuel Hfuel. eapply settle_mono; [exact Es|exact Hfuel].
      * by apply repr_contents.
  - set (vs := v :: vs0) in *.
    assert (Hgo : manualStop (this w) = true \/ vs <> []) by (by right).
    destruct (startAutoDequeue_round w vs Hr Hf Hgo)
      as (w1 & E & Hr1 & Hp1 & Hc1 & Ht1).
    set (k := batch_count (dequeueBatchSize (this w)) ArgNull (List.length vs)) in *.
    assert (Hk : (1 <= k <= List.length vs)%nat /\
                 Z.of_nat k <= dequeueBatchSize (this w)).
    { unfold k, batch_count, vs. simpl List.length. lia. }
    destruct (policy_fields _ _ Hp1) as (Hcb1 & Hb1 & Hd1 & Hm1).
    destruct (timers w ++ [dequeueDelay (this w)]) as [|d1 rest1] eqn:Hrest.
    { by destruct (timers w). }
    assert (Hlen1 : List.length rest1 = List.length (timers w)).
    { apply (f_equal List.length) in Hrest. rewrite length_app in Hrest.
      simpl in Hrest. lia. }
    destruct (drain_rounds (List.length vs + List.length (timers w)) w1
                (drop k vs) d1 rest1) as
      (w' & batches & Es & Hr' & Ht' & Hc' & Hcat & Hall & Hfl);
      [done|congruence|congruence|lia|done| |].
    { rewrite length_drop, Hlen1. lia. }
    exists w1, w', ((take k vs, bool_decide (drop k vs = [])) :: batches).
    split_and!; try done.
    + intros fuel Hfuel. eapply settle_mono; [exact Es|exact Hfuel].
    + by apply repr_contents.
    + rewrite Hc', Hc1. by rewrite <- app_assoc.
    + simpl. rewrite Hcat. apply take_drop.
    + apply Forall_cons. split.
      * simpl. split.
        -- unfold vs. destruct k; [lia|done].
        -- rewrite length_take. lia.
      * rewrite Hb1 in Hall. exact Hall.
    + intros [|i] c Hi; simpl in Hi.
      * injection Hi as <-. simpl. apply bool_decide_ext. split.
        -- intros Hd. rewrite Hd in Hcat.
           rewrite (concat_nonempty_nil batches); [done| |done].
           eapply Forall_impl; [exact Hall|]. by intros c [? _].
        -- intros Hl. destruct batches; [|simpl in Hl; lia].
           by rewrite <- Hcat.
      * rewrite (Hfl i c Hi). apply bool_decide_ext. simpl. lia.
Qed.


Lemma auto_dequeue_drains_witness :
  exists w1 w' batches,
    startAutoDequeue
      (build (JFun 0) 3 10 false
         [CEnqueue (JNum 1); CEnqueue (JNum 2); CEnqueue (JNum 3); CEnqueue (JNum 4)])
      = Ok JUndefined w1 /\
    settle 4 w1 = Some (Ok tt w') /\
    contents w' = [] /\ timers w' = [] /\
    calls w' = [] ++ batches /\
    concat (map fst batches) = [JNum 1; JNum 2; JNum 3; JNum 4].
Proof.
  destruct (auto_dequeue_drains
              (build (JFun 0) 3 10 false
                 [CEnqueue (JNum 1); CEnqueue (JNum 2); CEnqueue (JNum 3);
                  CEnqueue (JNum 4)]))
    as (w1 & w' & batches & E & Hs & Hc & Ht & Hcalls & Hcat & _).
  - apply build_reachable.
  - reflexivity.
  - reflexivity.
  - vm_compute. discriminate.
  - exists w1, w', batches.
    split; [exact E|]. split; [apply Hs; vm_compute; lia|].
    split; [exact Hc|]. split; [exact Ht|]. split; [exact Hcalls|exact Hcat].
Defined.

(** A round on a non-empty queue whose batch size is not positive
    extracts nothing and registers the next round. *)
Lemma fireTimer_stuck w vs d rest :
  repr w vs -> vs <> [] ->
  is_function (dequeueWorkerCallback (this w)) = true ->
  dequeueBatchSize (this w) <= 0 ->
  timers w = d :: rest ->
  exists w',
    fireTimer w = Ok tt w' /\ repr w' vs /\
    policy (this w') = policy (this w) /\
    calls w' = calls w ++ [([], false)] /\
    timers w' = rest ++ [dequeueDelay (this w)].
Proof.
  intros Hr Hne Hf Hbs Ht.
  destruct (fireTimer_round w vs d rest Hr Hf (or_intror Hne) Ht)
    as (w' & E & Hr' & Hp & Hc & Htm).
  replace (batch_count (dequeueBatchSize (this w)) ArgNull (List.length vs))
    with 0%nat in * by (unfold batch_count; lia).
  rewrite drop_0 in Hr', Hc. rewrite take_0 in Hc.
  rewrite bool_decide_eq_false_2 in Hc by done.
  exists w'. by split_and!.
Qed.

Lemma stuck_rounds n : forall w vs d rest,
  repr w vs -> vs <> [] ->
  is_function (dequeueWorkerCallback (this w)) = true ->
  dequeueBatchSize (this w) <= 0 ->
  timers w = d :: rest ->
  settle n w = None /\
  exists w',
    LinkedHost.fire_rounds n w = Ok tt w' /\ repr w' vs /\
    calls w' = calls w ++ replicate n ([], false).
Proof.
  induction n as [|n IH]; intros w vs d rest Hr Hne Hf Hbs Ht.
  - split; [by apply (settle_out_of_fuel w d rest)|].
    exists w. simpl. rewrite app_nil_r. by split_and!.
  - destruct (fireTimer_stuck w vs d rest Hr Hne Hf Hbs Ht)
      as (w1 & E & Hr1 & Hp1 & Hc1 & Ht1).
    destruct (policy_fields _ _ Hp1) as (Hcb1 & Hb1 & _).
    destruct (rest ++ [dequeueDelay (this w)]) as [|d1 rest1] eqn:Hrest.
    { by destruct rest. }
    destruct (IH w1 vs d1 rest1) as (Hs & w' & Ef & Hr' & Hc');
      [done|done|congruence|congruence|done|].
    split.
    + by rewrite (settle_step n w w1 d rest Ht E).
    + exists w'. simpl. unfold bind. rewrite E. split_and!; [done|done|].
      rewrite Hc', Hc1. by rewrite <- app_assoc.
Qed.

(** X7.  A batch size that is not positive makes the loop spin.  On a
    reachable non-empty queue with a worker and
    [dequeueBatchSize <= 0], [startAutoDequeue()] starts a loop that no
    number of timer rounds settles: every round calls the worker with an
    empty batch and [isEmpty = false], removes nothing and registers the
    next round. *)
Theorem auto_dequeue_spins w :
  reachable w ->
  is_function (dequeueWorkerCallback (this w)) = true ->
  dequeueBatchSize (this w) <= 0 ->
  contents w <> [] ->
  exists w1,
    startAutoDequeue w = Ok JUndefined w1 /\
    (forall fuel, settle fuel w1 = None) /\
    (forall n, exists wn,
       LinkedHost.fire_rounds n w1 = Ok tt wn /\
       calls wn = calls w ++ replicate (S n) ([], false) /\
       contents wn = contents w).
Proof.
  intros Hreach Hf Hbs Hne. pose proof (reachable_repr _ Hreach) as Hr.
  destruct (startAutoDequeue_round w _ Hr Hf (or_intror Hne))
    as (w1 & E & Hr1 & Hp1 & Hc1 & Ht1).
  replace (batch_count (dequeueBatchSize (this w)) ArgNull
             (List.length (contents w)))
    with 0%nat in * by (unfold batch_count; lia).
  rewrite drop_0 in Hr1, Hc1. rewrite take_0 in Hc1.
  rewrite bool_decide_eq_false_2 in Hc1 by done.
  destruct (policy_fields _ _ Hp1) as (Hcb1 & Hb1 & _).
  destruct (timers w ++ [dequeueDelay (this w)]) as [|d1 rest1] eqn:Hrest.
  { by destruct (timers w). }
  exists w1. split; [done|]. split.
  - intros fuel.
    destruct (stuck_rounds fuel w1 _ d1 rest1 Hr1 Hne) as [Hs _];
      [congruence|congruence|done|done].
  - intros n.
    destruct (stuck_rounds n w1 _ d1 rest1 Hr1 Hne) as (_ & wn & Ef & Hrn & Hcn);
      [congruence|congruence|done|].
    exists wn. split_and!; [done| |by apply repr_contents].
    rewrite Hcn, Hc1. rewrite <- app_assoc. simpl. done.
Qed.

Lemma auto_dequeue_spins_witness :
  exists w1,
    startAutoDequeue (build (JFun 0) 0 10 false [CEnqueue (JNum 1)]) = Ok JUndefined w1 /\
    settle 50 w1 = None.
Proof.
  destruct (auto_dequeue_spins (build (JFun 0) 0 10 false [CEnqueue (JNum 1)]))
    as (w1 & E & Hs & _).
  - apply build_reachable.
  - reflexivity.
  - vm_compute. discriminate.
  - vm_compute. discriminate.
  - exists w1. split; [exact E | apply Hs].
Defined.


Lemma manual_rounds n : forall w vs d rest,
  repr w vs ->
  is_function (dequeueWorkerCallback (this w)) = true ->
  manualStop (this w) = true ->
  timers w = d :: rest ->
  settle n w = None.
Proof.
  induction n as [|n IH]; intros w vs d rest Hr Hf Hms Ht.
  - by apply (settle_out_of_fuel w d rest).
  - destruct (fireTimer_round w vs d rest Hr Hf (or_introl Hms) Ht)
      as (w1 & E & Hr1 & Hp1 & Hc1 & Ht1).
    destruct (policy_fields _ _ Hp1) as (Hcb1 & _ & _ & Hm1).
    destruct (rest ++ [dequeueDelay (this w)]) as [|d1 rest1] eqn:Hrest.
    { by destruct rest. }
    rewrite (settle_step n w w1 d rest Ht E).
    eapply IH; [exact Hr1|congruence|congruence|exact Ht1].
Qed.

Lemma manual_idle_rounds n : forall w d rest,
  repr w [] ->
  is_function (dequeueWorkerCallback (this w)) = true ->
  manualStop (this w) = true ->
  timers w = d :: rest ->
  exists w',
    LinkedHost.fire_rounds n w = Ok tt w' /\ repr w' [] /\
    calls w' = calls w ++ replicate n ([], true).
Proof.
  induction n as [|n IH]; intros w d rest Hr Hf Hms Ht.
  - exists w. simpl. rewrite app_nil_r. by split_and!.
  - destruct (fireTimer_round w [] d rest Hr Hf (or_introl Hms) Ht)
      as (w1 & E & Hr1 & Hp1 & Hc1 & Ht1).
    rewrite drop_nil in Hr1, Hc1. rewrite take_nil in Hc1.
    rewrite bool_decide_eq_true_2 in Hc1 by done.
    destruct (policy_fields _ _ Hp1) as (Hcb1 & _ & _ & Hm1).
    destruct (rest ++ [dequeueDelay (this w)]) as [|d1 rest1] eqn:Hrest.
    { by destruct rest. }
    destruct (IH w1 d1 rest1) as (w' & Ef & Hr' & Hc');
      [done|congruence|congruence|done|].
    exists w'. simpl. unfold bind. rewrite E. split_and!; [done|done|].
    rewrite Hc', Hc1. by rewrite <- app_assoc.
Qed.

(** X8.  With [manualStop = true] the loop never ends by itself.  On a
    reachable queue with a worker, [startAutoDequeue()] starts a loop
    that no number of timer rounds settles; when nothing is queued every
    round still calls the worker, with an empty batch and
    [isEmpty = true]. *)
Theorem manual_stop_polls w :
  reachable w ->
  is_function (dequeueWorkerCallback (this w)) = true ->
  manualStop (this w) = true ->
  exists w1,
    startAutoDequeue w = Ok JUndefined w1 /\
    (forall fuel, settle fuel w1 = None) /\
    (contents w = [] ->
     forall n, exists wn,
       LinkedHost.fire_rounds n w1 = Ok tt wn /\
       calls wn = calls w ++ replicate (S n) ([], true) /\
       contents wn = []).
Proof.
  intros Hreach Hf Hms. pose proof (reachable_repr _ Hreach) as Hr.
  destruct (startAutoDequeue_round w _ Hr Hf (or_introl Hms))
    as (w1 & E & Hr1 & Hp1 & Hc1 & Ht1).
  destruct (policy_fields _ _ Hp1) as (Hcb1 & _ & _ & Hm1).
  destruct (timers w ++ [dequeueDelay (this w)]) as [|d1 rest1] eqn:Hrest.
  { by destruct (timers w). }
  exists w1. split; [done|]. split.
  - intros fuel.
    eapply manual_rounds; [exact Hr1|congruence|congruence|exact Ht1].
  - intros Hnil n. rewrite Hnil in Hr1, Hc1.
    rewrite drop_nil in Hr1, Hc1. rewrite take_nil in Hc1.
    rewrite bool_decide_eq_true_2 in Hc1 by done.
    destruct (manual_idle_rounds n w1 d1 rest1 Hr1) as (wn & Ef & Hrn & Hcn);
      [congruence|congruence|done|].
    exists wn. split_and!; [done| |by apply repr_contents].
    rewrite Hcn, Hc1. rewrite <- app_assoc. simpl. done.
Qed.

Lemma manual_stop_polls_witness :
  exists w1,
    startAutoDequeue (build (JFun 0) 2 10 true [CEnqueue (JNum 1)]) = Ok JUndefined w1 /\
    settle 50 w1 = None.
Proof.
  destruct (manual_stop_polls (build (JFun 0) 2 10 true [CEnqueue (JNum 1)]))
    as (w1 & E & Hs & _).
  - apply build_reachable.
  - reflexivity.
  - reflexivity.
  - exists w1. split; [exact E | apply Hs].
Defined.

Lemma no_worker_rounds ts : forall w,
  is_function (dequeueWorkerCallback (this w)) = false ->
  timers w = ts ->
  forall fuel, (List.length ts <= fuel)%nat ->
    settle fuel w = Some (Ok tt (with_timers w [])).
Proof.
  induction ts as [|d rest IH]; intros w Hf Ht fuel Hfuel.
  - rewrite (settle_done fuel w Ht). destruct w as [h q c t]. simpl in *.
    by subst.
  - destruct fuel as [|fuel]; [simpl in Hfuel; lia|].
    assert (E : fireTimer w = Ok tt (with_timers w rest)).
    { rewrite (fireTimer_cons _ _ _ Ht). unfold bind.
      by rewrite (startAutoDequeue_none (with_timers w rest) Hf). }
    rewrite (settle_step fuel w _ d rest Ht E).
    rewrite (IH (with_timers w rest)); [done|done|done|simpl in Hfuel; lia].
Qed.

(** X9.  Removing the worker ends the loop without losing anything.
    After [removeDequeueWorkerCallback()], however many rounds are
    pending, each of them fires without calling the worker, without
    touching the queue and without registering a successor: once they
    have fired, the queue holds what it held, the worker log is as it
    was and no timer is left. *)
Theorem remove_worker_ends_loop w :
  exists w1,
    removeDequeueWorkerCallback w = Ok tt w1 /\
    contents w1 = contents w /\
    forall fuel,
      (List.length (timers w) <= fuel)%nat ->
      exists w',
        settle fuel w1 = Some (Ok tt w') /\
        timers w' = [] /\ calls w' = calls w /\ contents w' = contents w /\
        heap w' = heap w.
Proof.
  eexists. split; [reflexivity|]. split; [reflexivity|].
  intros fuel Hfuel. eexists. split.
  - apply (no_worker_rounds (timers w)); [reflexivity|reflexivity|exact Hfuel].
  - by split_and!.
Qed.

(** X10.  An element enqueued while a round is pending is seen by that
    round.  On a reachable empty queue with a worker, automatic stop, a
    batch size of at least 1 and a pending round, that round would end
    the loop; after [enqueue(v)] it instead hands [[v]] to the worker
    with [isEmpty = true] and registers the next round. *)
Theorem enqueue_seen_by_pending_round w v d rest :
  reachable w ->
  is_function (dequeueWorkerCallback (this w)) = true ->
  manualStop (this w) = false ->
  1 <= dequeueBatchSize (this w) ->
  contents w = [] ->
  timers w = d :: rest ->
  fireTimer w = Ok tt (with_timers w rest) /\
  exists w',
    (enqueue v ;;; fireTimer) w = Ok tt w' /\
    calls w' = calls w ++ [([v], true)] /\
    contents w' = [] /\
    timers w' = rest ++ [dequeueDelay (this w)].
Proof.
  intros Hreach Hf Hms Hbs Hnil Ht. pose proof (reachable_repr _ Hreach) as Hr.
  rewrite Hnil in Hr. split; [by apply (fireTimer_idle w d rest)|].
  destruct (enqueue_spec w [] v Hr) as (w1 & E1 & Hr1 & Hp1 & Hc1 & Ht1).
  destruct (policy_fields _ _ Hp1) as (Hcb1 & Hb1 & Hd1 & Hm1).
  simpl in Hr1.
  assert (Hgo : manualStop (this w1) = true \/ [v] <> []) by (by right).
  destruct (fireTimer_round w1 [v] d rest Hr1) with (2 := Hgo)
    as (w' & E & Hr' & Hp & Hc & Htm); [congruence|congruence|].
  replace (batch_count (dequeueBatchSize (this w1)) ArgNull (List.length [v]))
    with 1%nat in * by (unfold batch_count; simpl; lia).
  simpl in Hr', Hc.
  exists w'. unfold bind. rewrite E1. split_and!; [done| |by apply repr_contents|].
  - by rewrite Hc, Hc1.
  - by rewrite Htm, Hd1.
Qed.

Lemma enqueue_seen_by_pending_round_witness :
  exists w',
    (enqueue (JStr "late") ;;; fireTimer)
      (build (JFun 0) 2 10 false [CEnqueue (JNum 1); CStartAutoDequeue]) = Ok tt w' /\
    calls w' = [([JNum 1], true)] ++ [([JStr "late"], true)] /\
    contents w' = [] /\
    timers w' = [] ++ [10].
Proof.
  destruct (enqueue_seen_by_pending_round
              (build (JFun 0) 2 10 false [CEnqueue (JNum 1); CStartAutoDequeue])
              (JStr "late") 10 []) as [_ Hseen].
  - apply build_reachable.
  - reflexivity.
  - reflexivity.
  - vm_compute. discriminate.
  - reflexivity.
  - reflexivity.
  - exact Hseen.
Defined.


Lemma remove_worker_ends_loop_witness :
  exists w1,
    removeDequeueWorkerCallback
      (build (JFun 0) 1 10 true [CEnqueue (JNum 1); CEnqueue (JNum 2); CStartAutoDequeue])
      = Ok tt w1 /\
    exists w',
      settle 1 w1 = Some (Ok tt w') /\
      timers w' = [] /\ calls w' = [([JNum 1], false)] /\ contents w' = [JNum 2].
Proof.
  destruct (remove_worker_ends_loop
              (build (JFun 0) 1 10 true
                 [CEnqueue (JNum 1); CEnqueue (JNum 2); CStartAutoDequeue]))
    as (w1 & E & _ & Hs).
  exists w1. split; [exact E|].
  destruct (Hs 1%nat) as (w' & Es & Ht & Hc & Hcont & _).
  - vm_compute. lia.
  - exists w'. split; [exact Es|]. split; [exact Ht|]. split; [exact Hc|exact Hcont].
Defined.

(** X13.  [stopAutoDequeue()] turns a manual loop into one that ends.
    On a reachable queue with a worker, a batch size of at least 1 and
    rounds pending, after [stopAutoDequeue()] the pending rounds hand
    what is still queued to the worker, in FIFO order and in non-empty
    batches, and then stop: after at most (queued elements + pending
    rounds) rounds the queue is empty and no timer is left. *)
Theorem stop_ends_loop w d rest :
  reachable w ->
  is_function (dequeueWorkerCallback (this w)) = true ->
  1 <= dequeueBatchSize (this w) ->
  timers w = d :: rest ->
  exists w1 w' batches,
    stopAutoDequeue w = Ok tt w1 /\
    (forall fuel,
       (List.length (contents w) + List.length (timers w) <= fuel)%nat ->
       settle fuel w1 = Some (Ok tt w')) /\
    contents w' = [] /\ timers w' = [] /\
    calls w' = calls w ++ batches /\
    concat (map fst batches) = contents w /\
    Forall (fun c => fst c <> []) batches.
Proof.
  intros Hreach Hf Hbs Ht. pose proof (reachable_repr _ Hreach) as Hr.
  pose (w1 := mkWorld (heap w)
                (mkQueue (head (this w)) (tail (this w)) (length (this w))
                   (dequeueWorkerCallback (this w)) (dequeueBatchSize (this w))
                   (dequeueDelay (this w)) false)
                (calls w) (timers w)).
  assert (Hr1 : repr w1 (contents w)).
  { destruct Hr as (ls & ?). by exists ls. }
  destruct (drain_rounds (List.length (contents w) + List.length (timers w)) w1
              (contents w) d rest Hr1)
    as (w' & batches & Es & Hr' & Ht' & Hc' & Hcat & Hall & _);
    [done|done|done|done|rewrite Ht; simpl; lia|].
  exists w1, w', batches. split_and!; try done.
  - intros fuel Hfuel. eapply settle_mono; [exact Es|exact Hfuel].
  - by apply repr_contents.
  - eapply Forall_impl; [exact Hall|]. by intros c [? _].
Qed.

Lemma stop_ends_loop_witness :
  exists w1 w' batches,
    stopAutoDequeue
      (build (JFun 0) 2 10 true
         [CEnqueue (JNum 1); CEnqueue (JNum 2); CEnqueue (JNum 3); CStartAutoDequeue])
      = Ok tt w1 /\
    settle 2 w1 = Some (Ok tt w') /\
    contents w' = [] /\ timers w' = [] /\
    calls w' = [([JNum 1; JNum 2], false)] ++ batches /\
    concat (map fst batches) = [JNum 3].
Proof.
  destruct (stop_ends_loop
              (build (JFun 0) 2 10 true
                 [CEnqueue (JNum 1); CEnqueue (JNum 2); CEnqueue (JNum 3);
                  CStartAutoDequeue]) 10 [])
    as (w1 & w' & batches & E & Hs & Hc & Ht & Hcalls & Hcat & _).
  - apply build_reachable.
  - reflexivity.
  - vm_compute. discriminate.
  - reflexivity.
  - exists w1, w', batches.
    split; [exact E|]. split; [apply Hs; vm_compute; lia|].
    split; [exact Hc|]. split; [exact Ht|]. split; [exact Hcalls|exact Hcat].
Defined.


End LinkedExtras.

(** * Further properties of the array-cursor queue *)

Module ArrayExtras.
Import ArrayCursor ArrayHost ArrayProofs.

(** ** Composing invariants *)

Lemma keeps_ret P {A} (a : A) : keeps P (ret a).
Proof. intros w HP. by exists a, w. Qed.

Lemma keeps_bind P {A B} (m : M World A) (k : A -> M World B) :
  keeps P m -> (forall a, keeps P (k a)) -> keeps P (bind m k).
Proof.
  intros Hm Hk w HP. destruct (Hm w HP) as (a & w1 & E1 & HP1).
  destruct (Hk a w1 HP1) as (b & w2 & E2 & HP2).
  exists b, w2. unfold bind. by rewrite E1.
Qed.

Lemma keeps_getThis P : keeps P getThis.
Proof. intros w HP. by exists (this w), w. Qed.

Lemma keeps_isEmpty P : keeps P isEmpty.
Proof. apply keeps_bind; [apply keeps_getThis | intros; apply keeps_ret]. Qed.

Lemma keeps_size P : keeps P size.
Proof. apply keeps_bind; [apply keeps_getThis | intros; apply keeps_ret]. Qed.

Lemma keeps_callWorker P els e : keeps P (callWorker els e).
Proof. intros w HP. by eexists _, _. Qed.

Lemma keeps_setTimeout P d : keeps P (setTimeout d).
Proof. intros w HP. by eexists _, _. Qed.

Lemma keeps_push_loop P (body : M World jsval) n :
  keeps P body -> forall acc, keeps P (push_loop body n acc).
Proof.
  intros Hb. induction n as [|n IH]; intros acc; simpl.
  - apply keeps_ret.
  - apply keeps_bind; [exact Hb | intros; apply IH].
Qed.

(** ** The live window of [items] *)

Lemma window_new cb bs delay : window (this (new cb bs delay)).
Proof.
  split; simpl; [lia|]. intros k. rewrite lookup_empty. split.
  - by intros [x Hx].
  - lia.
Qed.

Lemma window_clear : keeps window clear.
Proof.
  intros w _. eexists _, _. split; [reflexivity|]. simpl.
  split; simpl; [lia|]. intros k. rewrite lookup_empty. split.
  - by intros [x Hx].
  - lia.
Qed.

Lemma window_enqueue v : keeps window (enqueue v).
Proof.
  intros w [Hb Hw]. eexists _, _. split; [reflexivity|]. simpl.
  split; simpl; [lia|]. intros k.
  destruct (decide (k = rear (this w))) as [->|Hne].
  - rewrite lookup_insert_eq. split; [lia | by eauto].
  - rewrite lookup_insert_ne by done. rewrite Hw. lia.
Qed.

Lemma window_getDequeueElement : keeps window getDequeueElement.
Proof.
  intros w [Hb Hw].
  unfold getDequeueElement, bind, isEmpty, getThis, ret. simpl.
  destruct (front (this w) =? rear (this w)) eqn:He.
  - eexists _, _. split; [reflexivity|]. by split.
  - apply Z.eqb_neq in He. eexists _, _. split; [reflexivity|]. simpl.
    split; simpl; [lia|]. intros k.
    destruct (decide (k = front (this w))) as [->|Hne].
    + rewrite lookup_delete_eq. split; [by intros [x Hx] | lia].
    + rewrite lookup_delete_ne by done. rewrite Hw. lia.
Qed.

Lemma window_getDequeueElements a : keeps window (getDequeueElements a).
Proof.
  unfold getDequeueElements.
  apply keeps_bind; [apply keeps_size | intros queueSize].
  apply keeps_bind; [apply keeps_getThis | intros q].
  apply keeps_bind; [apply keeps_push_loop, window_getDequeueElement | intros els].
  apply keeps_bind; [apply keeps_isEmpty | intros e].
  apply keeps_bind; [|intros; apply keeps_ret].
  destruct e; [apply window_clear | apply keeps_ret].
Qed.

Lemma window_dequeueWorker : keeps window dequeueWorker.
Proof.
  unfold dequeueWorker.
  apply keeps_bind; [apply keeps_getThis | intros q].
  destruct (is_function (dequeueWorkerCallback q)); [|apply keeps_ret].
  apply keeps_bind; [apply window_getDequeueElements | intros els].
  apply keeps_bind; [apply keeps_isEmpty | intros e].
  apply keeps_callWorker.
Qed.

Lemma window_startAutoDequeue : keeps window startAutoDequeue.
Proof.
  unfold startAutoDequeue.
  apply keeps_bind; [apply keeps_getThis | intros q].
  destruct (is_null _ || negb _); [apply keeps_ret|].
  apply keeps_bind; [apply keeps_isEmpty | intros e].
  destruct (negb e); [|apply keeps_ret].
  apply keeps_bind; [apply window_dequeueWorker | intros _].
  apply keeps_bind; [apply keeps_getThis | intros q'].
  apply keeps_bind; [apply keeps_setTimeout | intros; apply keeps_ret].
Qed.

Lemma window_exec c : keeps window (exec c).
Proof.
  destruct c; simpl.
  - apply keeps_bind; [apply window_getDequeueElement | intros; apply keeps_ret].
  - apply keeps_bind; [apply window_getDequeueElements | intros; apply keeps_ret].
  - apply keeps_bind; [apply window_enqueue | intros; apply keeps_ret].
  - unfold dequeue. apply keeps_bind; [apply keeps_getThis | intros q].
    destruct (negb _ && _).
    + apply keeps_bind; [apply window_dequeueWorker | intros; apply keeps_ret].
    + apply keeps_bind; [apply window_getDequeueElements | intros; apply keeps_ret].
  - apply keeps_bind; [apply window_dequeueWorker | intros; apply keeps_ret].
  - apply keeps_bind; [apply window_startAutoDequeue | intros; apply keeps_ret].
  - apply keeps_bind; [|intros; apply keeps_ret].
    unfold peek. apply keeps_bind; [apply keeps_isEmpty | intros e].
    destruct e; [apply keeps_ret|].
    apply keeps_bind; [apply keeps_getThis | intros; apply keeps_ret].
  - apply keeps_bind; [apply keeps_isEmpty | intros; apply keeps_ret].
  - apply keeps_bind; [apply keeps_size | intros; apply keeps_ret].
  - apply keeps_bind; [apply window_clear | intros; apply keeps_ret].
  - apply keeps_bind; [|intros; apply keeps_ret].
    intros w HP. by eexists _, _.
  - apply keeps_bind; [|intros; apply keeps_ret].
    intros w HP. unfold fireTimer. destruct (timers w) as [|d rest].
    + by exists tt, w.
    + apply (keeps_bind window startAutoDequeue (fun _ => ret tt));
        [apply window_startAutoDequeue | intros; apply keeps_ret | exact HP].
Qed.

Lemma reachable_window w : reachable w -> window (this w).
Proof.
  induction 1 as [cb bs delay | w c r w' _ IH E].
  - apply window_new.
  - destruct (window_exec c w IH) as (r0 & w0 & E0 & HP).
    rewrite E in E0. by injection E0 as <- <-.
Qed.


Lemma array_reachable_run cs : forall w rs w',
  reachable w -> run cs w = Ok rs w' -> reachable w'.
Proof.
  induction cs as [|c cs IH]; intros w rs w' Hreach E; simpl in E.
  - by injection E as <- <-.
  - unfold bind in E. destruct (exec c w) as [r w1|] eqn:E1; [|done].
    destruct (run cs w1) as [rs1 w2|] eqn:E2; [|done].
    injection E as <- <-. eapply IH; [|exact E2].
    eapply reach_call; eauto.
Qed.

Lemma array_build_reachable cb bs delay cs : reachable (build cb bs delay cs).
Proof.
  unfold build. destruct (run cs (new cb bs delay)) as [rs w|] eqn:E.
  - eapply array_reachable_run; [apply reach_new | exact E].
  - apply reach_new.
Qed.

(** A batch extraction that leaves the queue empty has reset it. *)
Lemma getDequeueElements_resets a w els w' :
  getDequeueElements a w = Ok els w' ->
  front (this w') = rear (this w') ->
  items (this w') = ∅ /\ front (this w') = 0 /\ rear (this w') = 0.
Proof.
  unfold getDequeueElements, bind, size, getThis, ret. simpl.
  destruct (push_loop getDequeueElement _ [] w) as [els1 w1|]; [|done].
  unfold isEmpty, bind, getThis, ret. simpl.
  destruct (front (this w1) =? rear (this w1)) eqn:He; simpl.
  - intros [= <- <-]. by simpl.
  - intros [= <- <-] Heq. apply Z.eqb_neq in He. done.
Qed.

(** X11.  The array-cursor queue leaves nothing behind.  In every
    reachable state no call throws, [0 <= front <= rear], and [items]
    has an entry exactly at the indices from [front] to [rear - 1]:
    dequeued slots are deleted.  Whenever [getDequeueElements] leaves
    the queue empty, [items], [front] and [rear] are back to the empty
    array and 0. *)
Theorem array_window w :
  reachable w ->
  window (this w) /\
  (forall c, exists r w', exec c w = Ok r w' /\ window (this w')) /\
  (forall a, exists els w',
     getDequeueElements a w = Ok els w' /\
     (front (this w') = rear (this w') ->
      items (this w') = ∅ /\ front (this w') = 0 /\ rear (this w') = 0)).
Proof.
  intros Hreach. pose proof (reachable_window _ Hreach) as Hw.
  split; [done|]. split.
  - intros c. by apply window_exec.
  - intros a. destruct (window_getDequeueElements a w Hw) as (els & w' & E & _).
    exists els, w'. split; [done|]. by apply (getDequeueElements_resets a w els).
Qed.

Lemma array_window_witness :
  window (this (build JNull 2 10
                  [AEnqueue (JNum 1); AEnqueue (JNum 2); AEnqueue (JNum 3);
                   AGetDequeueElement; ADequeue ArgUndefined])).
Proof.
  destruct (array_window
              (build JNull 2 10
                 [AEnqueue (JNum 1); AEnqueue (JNum 2); AEnqueue (JNum 3);
                  AGetDequeueElement; ADequeue ArgUndefined])) as [Hw _].
  - apply array_build_reachable.
  - exact Hw.
Defined.



(** ** What the array-cursor methods leave alone *)

Lemma frames_ret {A} (a : A) : frames (ret a).
Proof. intros w a' w' [= <- <-]. done. Qed.

Lemma frames_bind {A B} (m : M World A) (k : A -> M World B) :
  frames m -> (forall a, frames (k a)) -> frames (bind m k).
Proof.
  intros Hm Hk w b w' E. unfold bind in E.
  destruct (m w) as [a w1|] eqn:E1; [|done].
  rewrite (Hk a w1 b w' E). by apply (Hm w a).
Qed.

Lemma frames_getThis : frames getThis.
Proof. intros w a w' [= <- <-]. done. Qed.

Lemma frames_isEmpty : frames isEmpty.
Proof. apply frames_bind; [apply frames_getThis | intros; apply frames_ret]. Qed.

Lemma frames_size : frames size.
Proof. apply frames_bind; [apply frames_getThis | intros; apply frames_ret]. Qed.

Lemma frames_setItems m : frames (setItems m).
Proof. intros w a w' [= <- <-]. done. Qed.

Lemma frames_setFront n : frames (setFront n).
Proof. intros w a w' [= <- <-]. done. Qed.

Lemma frames_setRear n : frames (setRear n).
Proof. intros w a w' [= <- <-]. done. Qed.

Lemma frames_clear : frames clear.
Proof.
  unfold clear. apply frames_bind; [apply frames_setItems | intros _].
  apply frames_bind; [apply frames_setFront | intros _]. apply frames_setRear.
Qed.

Lemma frames_enqueue v : frames (enqueue v).
Proof.
  unfold enqueue. apply frames_bind; [apply frames_getThis | intros q].
  apply frames_bind; [apply frames_setItems | intros _].
  apply frames_bind; [apply frames_getThis | intros q']. apply frames_setRear.
Qed.

Lemma frames_getDequeueElement : frames getDequeueElement.
Proof.
  unfold getDequeueElement. apply frames_bind; [apply frames_isEmpty | intros e].
  destruct e; [apply frames_ret|].
  apply frames_bind; [apply frames_getThis | intros q].
  apply frames_bind; [apply frames_setItems | intros _].
  apply frames_bind; [apply frames_getThis | intros q'].
  apply frames_bind; [apply frames_setFront | intros; apply frames_ret].
Qed.

Lemma frames_push_loop (body : M World jsval) n :
  frames body -> forall acc, frames (push_loop body n acc).
Proof.
  intros Hb. induction n as [|n IH]; intros acc; simpl.
  - apply frames_ret.
  - apply frames_bind; [exact Hb | intros; apply IH].
Qed.

Lemma frames_getDequeueElements a : frames (getDequeueElements a).
Proof.
  unfold getDequeueElements.
  apply frames_bind; [apply frames_size | intros queueSize].
  apply frames_bind; [apply frames_getThis | intros q].
  apply frames_bind; [apply frames_push_loop, frames_getDequeueElement | intros els].
  apply frames_bind; [apply frames_isEmpty | intros e].
  apply frames_bind; [|intros; apply frames_ret].
  destruct e; [apply frames_clear | apply frames_ret].
Qed.

Lemma host_fields w w' :
  host w' = host w ->
  dequeueWorkerCallback (this w') = dequeueWorkerCallback (this w) /\
  dequeueBatchSize (this w') = dequeueBatchSize (this w) /\
  dequeueDelay (this w') = dequeueDelay (this w) /\
  calls w' = calls w /\ timers w' = timers w.
Proof. unfold host. intros [= -> -> -> -> ->]. done. Qed.

(** ** The array-cursor methods on a represented queue *)

Lemma array_getDequeueElement_nil w :
  repr w [] -> getDequeueElement w = Ok JNull w.
Proof.
  intros Hr. unfold getDequeueElement, bind, isEmpty, getThis, ret. simpl.
  by rewrite (array_repr_isEmpty _ _ Hr).
Qed.

Lemma array_getDequeueElements_host w vs a :
  repr w vs ->
  let n := batch_count (dequeueBatchSize (this w)) a (List.length vs) in
  exists w',
    getDequeueElements a w = Ok (take n vs) w' /\
    repr w' (drop n vs) /\ host w' = host w.
Proof.
  intros Hr n.
  destruct (array_getDequeueElements_spec w vs a Hr) as (w' & E & Hr' & _).
  exists w'. split_and!; [done|done|]. by apply (frames_getDequeueElements a w _ _ E).
Qed.

Lemma array_dequeueWorker_none w :
  is_function (dequeueWorkerCallback (this w)) = false ->
  dequeueWorker w = Ok tt w.
Proof. intros Hf. unfold dequeueWorker, bind, getThis. by rewrite Hf. Qed.

Lemma array_dequeueWorker_spec w vs :
  repr w vs ->
  is_function (dequeueWorkerCallback (this w)) = true ->
  let n := batch_count (dequeueBatchSize (this w)) ArgNull (List.length vs) in
  exists w',
    dequeueWorker w = Ok tt w' /\
    repr w' (drop n vs) /\
    dequeueWorkerCallback (this w') = dequeueWorkerCallback (this w) /\
    dequeueBatchSize (this w') = dequeueBatchSize (this w) /\
    dequeueDelay (this w') = dequeueDelay (this w) /\
    calls w' = calls w ++ [(take n vs, bool_decide (drop n vs = []))] /\
    timers w' = timers w.
Proof.
  intros Hr Hf n.
  destruct (array_getDequeueElements_host w vs ArgUndefined Hr)
    as (w1 & E1 & Hr1 & Hh1).
  change (batch_count (dequeueBatchSize (this w)) ArgUndefined (List.length vs))
    with n in *.
  destruct (host_fields _ _ Hh1) as (Hcb & Hbs & Hd & Hc & Ht).
  unfold dequeueWorker, bind at 1, getThis. rewrite Hf.
  unfold bind at 1. rewrite E1.
  unfold bind, isEmpty, bind, getThis, ret, callWorker.
  rewrite (array_repr_isEmpty _ _ Hr1).
  eexists. split; [reflexivity|]. simpl.
  split_and!; [|done|done|done|by rewrite Hc|done].
  destruct Hr1 as [? ?]. by split.
Qed.

Lemma array_repr_with_timers w ts vs : repr w vs -> repr (with_timers w ts) vs.
Proof. intros [? ?]. by split. Qed.

Lemma array_startAutoDequeue_none w :
  is_function (dequeueWorkerCallback (this w)) = false ->
  startAutoDequeue w = Ok (JBool false) w.
Proof.
  intros Hf. unfold startAutoDequeue, bind, getThis.
  by rewrite LinkedProofs.no_worker_test, Hf.
Qed.

Lemma array_startAutoDequeue_idle w :
  repr w [] ->
  is_function (dequeueWorkerCallback (this w)) = true ->
  startAutoDequeue w = Ok JUndefined w.
Proof.
  intros Hr Hf. unfold startAutoDequeue, bind, getThis, isEmpty, bind, getThis, ret.
  rewrite LinkedProofs.no_worker_test, Hf. simpl.
  by rewrite (array_repr_isEmpty _ _ Hr).
Qed.

Lemma array_startAutoDequeue_round w vs :
  repr w vs -> vs <> [] ->
  is_function (dequeueWorkerCallback (this w)) = true ->
  let n := batch_count (dequeueBatchSize (this w)) ArgNull (List.length vs) in
  exists w',
    startAutoDequeue w = Ok JUndefined w' /\
    repr w' (drop n vs) /\
    dequeueWorkerCallback (this w') = dequeueWorkerCallback (this w) /\
    dequeueBatchSize (this w') = dequeueBatchSize (this w) /\
    dequeueDelay (this w') = dequeueDelay (this w) /\
    calls w' = calls w ++ [(take n vs, bool_decide (drop n vs = []))] /\
    timers w' = timers w ++ [dequeueDelay (this w)].
Proof.
  intros Hr Hne Hf n.
  destruct (array_dequeueWorker_spec w vs Hr Hf)
    as (w1 & E1 & Hr1 & Hcb & Hbs & Hd & Hc & Ht).
  fold n in Hr1, Hc.
  exists (with_timers w1 (timers w1 ++ [dequeueDelay (this w1)])). split.
  - unfold startAutoDequeue, bind at 1, getThis.
    rewrite LinkedProofs.no_worker_test, Hf. simpl.
    unfold bind at 1, isEmpty, bind at 1, getThis, ret.
    rewrite (array_repr_isEmpty _ _ Hr).
    rewrite bool_decide_eq_false_2 by done. simpl.
    unfold bind at 1. by rewrite E1.
  - simpl. split_and!; [by apply array_repr_with_timers|done|done|done|done|].
    by rewrite Ht, Hd.
Qed.


End ArrayExtras.

(** * The two implementations agree on the whole interface *)

Module AsyncEquivalence.

Lemma linked_host_fields w w' :
  Linked.same_host w w' ->
  Linked.dequeueWorkerCallback (Linked.this w') =
    Linked.dequeueWorkerCallback (Linked.this w) /\
  Linked.dequeueBatchSize (Linked.this w') = Linked.dequeueBatchSize (Linked.this w) /\
  Linked.dequeueDelay (Linked.this w') = Linked.dequeueDelay (Linked.this w) /\
  Linked.manualStop (Linked.this w') = Linked.manualStop (Linked.this w) /\
  Linked.calls w' = Linked.calls w /\ Linked.timers w' = Linked.timers w.
Proof.
  intros (Hp & Hc & Ht).
  destruct (LinkedProofs.policy_fields _ _ Hp) as (? & ? & ? & ?). by split_and!.
Qed.

Lemma sim_host_new cb bs delay :
  sim_host (Linked.new cb bs delay false) (ArrayCursor.new cb bs delay).
Proof.
  exists []. split; [apply LinkedProofs.new_repr|].
  split; [apply ArrayProofs.array_new_repr|]. by split_and!.
Qed.

Lemma sim_host_with_timers lw aw ts :
  sim_host lw aw ->
  sim_host (Linked.with_timers lw ts) (ArrayHost.with_timers aw ts).
Proof.
  intros (vs & Hl & Ha & Hcb & Hbs & Hd & Hms & Hc & Ht). exists vs.
  split; [by apply LinkedProofs.repr_with_timers|].
  split; [by apply ArrayExtras.array_repr_with_timers|]. by split_and!.
Qed.

Lemma sim_getDequeueElements lw aw a :
  sim_host lw aw ->
  exists els lw' aw',
    Linked.getDequeueElements a lw = Ok els lw' /\
    ArrayCursor.getDequeueElements a aw = Ok els aw' /\
    sim_host lw' aw'.
Proof.
  intros (vs & Hl & Ha & Hcb & Hbs & Hd & Hms & Hc & Ht).
  destruct (LinkedProofs.getDequeueElements_spec lw vs a Hl)
    as (lw' & El & Hl' & Hsl & _).
  destruct (ArrayExtras.array_getDequeueElements_host aw vs a Ha)
    as (aw' & Ea & Ha' & Hh).
  rewrite <- Hbs in Ea, Ha'.
  destruct (linked_host_fields _ _ Hsl) as (?&?&?&?&?&?).
  destruct (ArrayExtras.host_fields _ _ Hh) as (?&?&?&?&?).
  eexists _, lw', aw'. split; [exact El|]. split; [exact Ea|].
  eexists. split; [exact Hl'|]. split; [exact Ha'|].
  split_and!; congruence.
Qed.

Lemma sim_dequeueWorker lw aw :
  sim_host lw aw ->
  exists lw' aw',
    Linked.dequeueWorker lw = Ok tt lw' /\
    ArrayCursor.dequeueWorker aw = Ok tt aw' /\
    sim_host lw' aw'.
Proof.
  intros Hsim. pose proof Hsim as (vs & Hl & Ha & Hcb & Hbs & Hd & Hms & Hc & Ht).
  destruct (is_function (Linked.dequeueWorkerCallback (Linked.this lw))) eqn:Hf.
  - destruct (LinkedProofs.dequeueWorker_spec lw vs Hl Hf)
      as (lw' & El & Hl' & Hp & Hcl & Htl).
    assert (Hfa : is_function
                    (ArrayCursor.dequeueWorkerCallback (ArrayCursor.this aw)) = true)
      by congruence.
    destruct (ArrayExtras.array_dequeueWorker_spec aw vs Ha Hfa)
      as (aw' & Ea & Ha' & ? & ? & ? & Hca & Hta).
    rewrite <- Hbs in Ha', Hca.
    destruct (LinkedProofs.policy_fields _ _ Hp) as (?&?&?&?).
    exists lw', aw'. split; [exact El|]. split; [exact Ea|].
    eexists. split; [exact Hl'|]. split; [exact Ha'|].
    split_and!; congruence.
  - exists lw, aw. split; [by apply LinkedProofs.dequeueWorker_none|].
    split; [apply ArrayExtras.array_dequeueWorker_none; congruence | exact Hsim].
Qed.

Lemma sim_startAutoDequeue lw aw :
  sim_host lw aw ->
  exists r lw' aw',
    Linked.startAutoDequeue lw = Ok r lw' /\
    ArrayCursor.startAutoDequeue aw = Ok r aw' /\
    sim_host lw' aw'.
Proof.
  intros Hsim. pose proof Hsim as (vs & Hl & Ha & Hcb & Hbs & Hd & Hms & Hc & Ht).
  destruct (is_function (Linked.dequeueWorkerCallback (Linked.this lw))) eqn:Hf.
  - assert (Hfa : is_function
                    (ArrayCursor.dequeueWorkerCallback (ArrayCursor.this aw)) = true)
      by congruence.
    destruct vs as [|v vs0].
    + exists JUndefined, lw, aw.
      split; [by apply LinkedProofs.startAutoDequeue_idle|].
      split; [by apply ArrayExtras.array_startAutoDequeue_idle | exact Hsim].
    + assert (Hne : v :: vs0 <> []) by done.
      destruct (LinkedProofs.startAutoDequeue_round lw _ Hl Hf (or_intror Hne))
        as (lw' & El & Hl' & Hp & Hcl & Htl).
      destruct (ArrayExtras.array_startAutoDequeue_round aw _ Ha Hne Hfa)
        as (aw' & Ea & Ha' & ? & ? & ? & Hca & Hta).
      rewrite <- Hbs in Ha', Hca.
      destruct (LinkedProofs.policy_fields _ _ Hp) as (?&?&?&?).
      exists JUndefined, lw', aw'. split; [exact El|]. split; [exact Ea|].
      eexists. split; [exact Hl'|]. split; [exact Ha'|].
      split_and!; congruence.
  - exists (JBool false), lw, aw.
    split; [by apply LinkedProofs.startAutoDequeue_none|].
    split; [apply ArrayExtras.array_startAutoDequeue_none; congruence | exact Hsim].
Qed.

Lemma array_dequeue_worker w a :
  is_function (ArrayCursor.dequeueWorkerCallback (ArrayCursor.this w)) = true ->
  ArrayCursor.dequeue a w = (ArrayCursor.dequeueWorker ;;; ret (RVal JUndefined)) w.
Proof.
  intros Hf. unfold ArrayCursor.dequeue, bind at 1, ArrayCursor.getThis.
  by rewrite LinkedProofs.worker_test, Hf.
Qed.

(** One call of the common interface, or one timer round, keeps the
    two queues in step. *)
Lemma sim_host_step lw aw c :
  sim_host lw aw ->
  exists r lw' aw',
    Linked.exec (LinkedHost.api c) lw = Ok r lw' /\
    ArrayHost.exec c aw = Ok r aw' /\
    sim_host lw' aw'.
Proof.
  intros Hsim. pose proof Hsim as (vs & Hl & Ha & Hcb & Hbs & Hd & Hms & Hc & Ht).
  destruct c; simpl.
  - destruct vs as [|v vs0].
    + exists (RVal JNull), lw, aw. unfold bind.
      rewrite (LinkedProofs.getDequeueElement_nil _ Hl).
      rewrite (ArrayExtras.array_getDequeueElement_nil _ Ha). by split_and!.
    + destruct (LinkedProofs.getDequeueElement_cons _ _ _ Hl)
        as (lw' & El & Hl' & Hsl & _).
      destruct (ArrayProofs.array_getDequeueElement_cons _ _ _ Ha)
        as (aw' & Ea & Ha' & _).
      pose proof (ArrayExtras.frames_getDequeueElement aw _ _ Ea) as Hh.
      destruct (linked_host_fields _ _ Hsl) as (?&?&?&?&?&?).
      destruct (ArrayExtras.host_fields _ _ Hh) as (?&?&?&?&?).
      exists (RVal v), lw', aw'. unfold bind. rewrite El, Ea.
      split; [done|]. split; [done|].
      exists vs0. split; [exact Hl'|]. split; [exact Ha'|].
      split_and!; congruence.
  - destruct (sim_getDequeueElements lw aw batchSize Hsim)
      as (els & lw' & aw' & El & Ea & Hsim').
    exists (RArray els), lw', aw'. unfold bind. by rewrite El, Ea.
  - destruct (LinkedProofs.enqueue_spec lw vs v Hl) as (lw' & El & Hl' & Hsl).
    destruct (ArrayProofs.array_enqueue_spec aw vs v Ha) as (aw' & Ea & Ha' & _).
    pose proof (ArrayExtras.frames_enqueue v aw _ _ Ea) as Hh.
    destruct (linked_host_fields _ _ Hsl) as (?&?&?&?&?&?).
    destruct (ArrayExtras.host_fields _ _ Hh) as (?&?&?&?&?).
    exists (RVal JUndefined), lw', aw'. unfold bind. rewrite El, Ea.
    split; [done|]. split; [done|].
    exists (vs ++ [v]). split; [exact Hl'|]. split; [exact Ha'|].
    split_and!; congruence.
  - destruct (is_function (Linked.dequeueWorkerCallback (Linked.this lw))) eqn:Hf.
    + rewrite (LinkedProofs.dequeue_worker _ _ Hf).
      rewrite array_dequeue_worker by congruence.
      destruct (sim_dequeueWorker lw aw Hsim) as (lw' & aw' & El & Ea & Hsim').
      exists (RVal JUndefined), lw', aw'. unfold bind. by rewrite El, Ea.
    + rewrite (LinkedProofs.dequeue_no_worker _ _ Hf).
      rewrite Equivalence.array_dequeue_no_worker by congruence.
      destruct (sim_getDequeueElements lw aw
                  (match batchSize with ArgUndefined => ArgNum 1 | _ => batchSize end)
                  Hsim)
        as (els & lw' & aw' & El & Ea & Hsim').
      exists (RArray els), lw', aw'. unfold bind. by rewrite El, Ea.
  - destruct (sim_dequeueWorker lw aw Hsim) as (lw' & aw' & El & Ea & Hsim').
    exists (RVal JUndefined), lw', aw'. unfold bind. by rewrite El, Ea.
  - destruct (sim_startAutoDequeue lw aw Hsim) as (r & lw' & aw' & El & Ea & Hsim').
    exists (RVal r), lw', aw'. unfold bind. by rewrite El, Ea.
  - exists (RVal (default JNull (vs !! 0%nat))), lw, aw. unfold bind.
    rewrite (LinkedProofs.peek_spec _ _ Hl), (ArrayProofs.array_peek_spec _ _ Ha).
    by split_and!.
  - exists (RVal (JBool (bool_decide (vs = [])))), lw, aw.
    unfold bind, Linked.isEmpty, ArrayCursor.isEmpty, bind, Linked.getThis,
      ArrayCursor.getThis, ret.
    rewrite (LinkedProofs.repr_isEmpty _ _ Hl), (ArrayProofs.array_repr_isEmpty _ _ Ha).
    by split_and!.
  - exists (RVal (JNum (Z.of_nat (List.length vs)))), lw, aw.
    unfold bind, Linked.size, ArrayCursor.size, bind, Linked.getThis,
      ArrayCursor.getThis, ret.
    rewrite (LinkedProofs.repr_length _ _ Hl), (ArrayProofs.array_repr_size _ _ Ha).
    by split_and!.
  - destruct (LinkedProofs.clear_spec lw) as (lw' & El & Hl' & Hsl & _).
    destruct (ArrayProofs.array_clear_repr aw) as (aw' & Ea & Ha' & _).
    pose proof (ArrayExtras.frames_clear aw _ _ Ea) as Hh.
    destruct (linked_host_fields _ _ Hsl) as (?&?&?&?&?&?).
    destruct (ArrayExtras.host_fields _ _ Hh) as (?&?&?&?&?).
    exists (RVal JUndefined), lw', aw'. unfold bind. rewrite El, Ea.
    split; [done|]. split; [done|].
    exists []. split; [exact Hl'|]. split; [exact Ha'|].
    split_and!; congruence.
  - eexists _, _, _. split; [reflexivity|]. split; [reflexivity|].
    exists vs. simpl. split.
    { destruct Hl as (ls & ?). by exists ls. }
    split; [by destruct Ha|]. by split_and!.
  - unfold bind, Linked.fireTimer, ArrayHost.fireTimer. rewrite <- Ht.
    destruct (Linked.timers lw) as [|d rest].
    + exists (RVal JUndefined), lw, aw. by split_and!.
    + destruct (sim_startAutoDequeue _ _ (sim_host_with_timers lw aw rest Hsim))
        as (r & lw' & aw' & El & Ea & Hsim').
      exists (RVal JUndefined), lw', aw'. unfold bind. by rewrite El, Ea.
Qed.

Lemma sim_host_run cs : forall lw aw,
  sim_host lw aw ->
  exists rs lw' aw',
    Linked.run (map LinkedHost.api cs) lw = Ok rs lw' /\
    ArrayHost.run cs aw = Ok rs aw' /\
    sim_host lw' aw'.
Proof.
  induction cs as [|c cs IH]; intros lw aw Hsim; simpl.
  - exists [], lw, aw. by split_and!.
  - destruct (sim_host_step lw aw c Hsim) as (r & lw1 & aw1 & El & Ea & Hsim1).
    destruct (IH lw1 aw1 Hsim1) as (rs & lw2 & aw2 & El2 & Ea2 & Hsim2).
    exists (r :: rs), lw2, aw2. unfold bind. rewrite El, Ea, El2, Ea2.
    by split_and!.
Qed.

(** X12.  The linked-list queue built with [manualStop = false] and
    the array-cursor queue built with the same worker, batch size and
    delay cannot be told apart, worker or not: under every sequence of
    calls of the methods they share and of timer rounds, both complete
    every call, return the same values, make the same worker calls in
    the same order and have the same timers pending. *)
Theorem implementations_agree_async cb bs delay cs :
  exists rs lw aw,
    Linked.run (map LinkedHost.api cs) (Linked.new cb bs delay false) = Ok rs lw /\
    ArrayHost.run cs (ArrayCursor.new cb bs delay) = Ok rs aw /\
    Linked.calls lw = ArrayCursor.calls aw /\
    Linked.timers lw = ArrayCursor.timers aw.
Proof.
  destruct (sim_host_run cs _ _ (sim_host_new cb bs delay))
    as (rs & lw & aw & El & Ea & (vs & _ & _ & _ & _ & _ & _ & Hc & Ht)).
  by exists rs, lw, aw.
Qed.

End AsyncEquivalence.
